(** * TAMS data getter: a shallow embedding of [src/main.js]

    The scraper drives a browser through Selenium, logs into the portal,
    walks the four report pages and turns their HTML tables into records.
    This file embeds the program as Rocq functions and proves (or refutes)
    the properties stated for it.

    Conventions of the embedding:
    - a JavaScript string is a [string] whose characters are read as code
      units in the Latin-1 range (0..255);
    - a JavaScript number that holds an integer is a [Z];
    - a plain object used as a dictionary is a [gmap string _] holding
      its own properties; an assignment to the name [__proto__] creates
      none ([setProperty]);
    - [async] code is a state-and-exception monad over the browser world:
      a computation returns a value, throws, or ends the process
      ([process.exit]); every call to the outside is an operation of the
      [Browser] interface, and so is every value read from the imported
      packages (the strategies [By.ID], [By.NAME], [By.TAG_NAME],
      [By.XPATH]): the program is verified against every implementation
      of the interface. Two implementations are given for running it on
      concrete pages, [Fixture.fixtureBrowser] and [Package.browser]. *)

From Stdlib Require Import ZArith List Ascii String Lia Bool.
From stdpp Require Import base option list gmap strings pretty.

#[local] Set Warnings "-register-all,-clear-no-such-hyp".

Open Scope string_scope.

(** ** JavaScript strings *)

Module JsString.

(** Code units removed by [String.prototype.trim]: the WhiteSpace and
    LineTerminator productions, restricted to the Latin-1 range
    (TAB, LF, VT, FF, CR, SP, NBSP). *)
Definition isWhiteSpace (c : ascii) : bool :=
  match N_of_ascii c with
  | 9 | 10 | 11 | 12 | 13 | 32 | 160 => true
  | _ => false
  end%N.

Fixpoint trimStart (s : string) : string :=
  match s with
  | EmptyString => EmptyString
  | String c s' => if isWhiteSpace c then trimStart s' else s
  end.

Fixpoint trimEnd (s : string) : string :=
  match s with
  | EmptyString => EmptyString
  | String c s' =>
      match trimEnd s' with
      | EmptyString => if isWhiteSpace c then EmptyString else String c EmptyString
      | t => String c t
      end
  end.

(** [s.trim()] *)
Definition trim (s : string) : string := trimEnd (trimStart s).

Fixpoint mapChars (f : ascii -> ascii) (s : string) : string :=
  match s with
  | EmptyString => EmptyString
  | String c s' => String (f c) (mapChars f s')
  end.

(** [s.replace(/c/g, d)] for a one-character pattern [c] and a
    one-character replacement [d]. *)
Definition replaceAll (c d : ascii) (s : string) : string :=
  mapChars (fun x => if Ascii.eqb x c then d else x) s.

Definition newline : ascii := ascii_of_N 10.
Definition space : ascii := ascii_of_N 32.
Definition underscore : ascii := ascii_of_N 95.

(** Lower-case mapping of one Latin-1 code unit: A-Z and the accented
    capitals 0xC0-0xDE (the multiplication sign 0xD7 is not a letter).
    Within this range [toLowerCase] maps unit to unit; beyond it
    JavaScript maps some units to two, so that nothing is stated below
    about the length of a lower-cased string. *)
Definition lowerChar (c : ascii) : ascii :=
  let n := N_of_ascii c in
  if ((65 <=? n) && (n <=? 90))%N then ascii_of_N (n + 32)
  else if ((192 <=? n) && (n <=? 222) && negb (n =? 215))%N then ascii_of_N (n + 32)
  else c.

(** Upper-case mapping of one ASCII letter; the program applies
    [toUpperCase] to ASCII constants only. *)
Definition upperChar (c : ascii) : ascii :=
  let n := N_of_ascii c in
  if ((97 <=? n) && (n <=? 122))%N then ascii_of_N (n - 32) else c.

Definition toLowerCase (s : string) : string := mapChars lowerChar s.
Definition toUpperCase (s : string) : string := mapChars upperChar s.

Fixpoint startsWith (p s : string) : bool :=
  match p, s with
  | EmptyString, _ => true
  | String a p', String b s' => Ascii.eqb a b && startsWith p' s'
  | String _ _, EmptyString => false
  end.

(** [s.includes(p)] *)
Fixpoint includes (p s : string) : bool :=
  startsWith p s ||
  match s with
  | EmptyString => false
  | String _ s' => includes p s'
  end.

(** [s.charAt(0).toUpperCase() + s.slice(1)] *)
Definition capitalizeFirst (s : string) : string :=
  match s with
  | EmptyString => EmptyString
  | String c s' => String (upperChar c) s'
  end.

End JsString.

Import JsString.

(** ** Table headers (main.js, line 179) *)

(** [text.trim().replace(/\n/g, ' ').replace(/ /g, '_').toLowerCase()] *)
Definition normalizeHeader (text : string) : string :=
  toLowerCase (replaceAll space underscore (replaceAll newline space (trim text))).

(** [header.includes('action') || header.includes('attachment')] (line 200) *)
Definition excludedHeader (header : string) : bool :=
  includes "action" header || includes "attachment" header.

(** ** Month and year of an attendance query (main.js, lines 292-311) *)

Definition months : list string :=
  [ "January"; "February"; "March"; "April"; "May"; "June";
    "July"; "August"; "September"; "October"; "November"; "December" ].

(** JavaScript's [%] truncates towards zero: it is [Z.rem], not [Z.modulo]. *)
Definition adjustedMonth (currentMonth increment : Z) : Z :=
  (Z.rem (currentMonth + increment - 1) 12 + 1)%Z.

Definition adjustedYear (currentMonth currentYear increment : Z) : Z :=
  let m := adjustedMonth currentMonth increment in
  if ((m =? 12) && (increment =? -1))%Z then (currentYear - 1)%Z
  else if ((m =? 1) && (increment =? 1))%Z then (currentYear + 1)%Z
  else currentYear.

(** [arr[i]]: [undefined] (here [None]) outside the array, also for a
    negative index. *)
Definition arrayGet {A : Type} (arr : list A) (i : Z) : option A :=
  if (i <? 0)%Z then None else arr !! Z.to_nat i.

Definition selectedMonth (currentMonth increment : Z) : option string :=
  arrayGet months (adjustedMonth currentMonth increment - 1).

(** What a template literal prints for a possibly undefined string. *)
Definition showOpt (o : option string) : string :=
  match o with
  | Some s => s
  | None => "undefined"
  end.


(** ** The outside world *)

(** A JavaScript error object, as far as the program looks into it. *)
Record error := mkError {
  err_name : string;
  err_code : string;
  err_message : string
}.

Definition typeError (msg : string) : error :=
  {| err_name := "TypeError"; err_code := ""; err_message := msg |}.

(** How a computation ends: with a value, with a thrown error, or with
    the process gone ([process.exit(code)]). *)
Inductive result (A : Type) : Type :=
| Ret (a : A)
| Throw (e : error)
| Exit (code : Z).
Arguments Ret {A} a.
Arguments Throw {A} e.
Arguments Exit {A} code.

(** Values the element locator hands out: [null], one element, or an
    array of elements. *)
Inductive located (E : Type) : Type :=
| Null
| One (e : E)
| Many (es : list E).
Arguments Null {E}.
Arguments One {E} e.
Arguments Many {E} es.

(** Truthiness: only [null] is falsy; an element and an array (even an
    empty one) are objects. *)
Definition truthy {E : Type} (v : located E) : bool :=
  match v with
  | Null => false
  | _ => true
  end.

(** [cells[i]] *)
Definition elementAt {E : Type} (v : located E) (i : nat) : option E :=
  match v with
  | Many es => es !! i
  | _ => None
  end.

(** A scraped row and the document handed to persistence. *)
Abbreviation record := (gmap string string).
Abbreviation aggregate := (gmap string (list (gmap string string))).

(** What the program calls outside itself, and what it reads from the
    packages it imports. [W] is the state of the world (browser, network,
    clock, disk), [E] the type of element handles, [By] the type of the
    values passed as the parameter [by] of the element locator. A call
    that can reject returns [inl error]. *)
Class Browser (W E By : Type) := {
  (** the values of [By.ID], [By.NAME], [By.TAG_NAME] and [By.XPATH] in
      the imported package *)
  By_ID : By;
  By_NAME : By;
  By_TAG_NAME : By;
  By_XPATH : By;
  (** what a template literal prints for a strategy *)
  showBy : By -> string;
  (** [axios.get(url, { timeout })]: the response status, or a rejection *)
  axios_get : string -> Z -> W -> (error + Z) * W;
  (** [driver.wait(until.elementLocated(by, locator), timeout)] *)
  wait_elementLocated : By -> string -> Z -> W -> (error + E) * W;
  (** [driver.wait(until.elementsLocated(by, locator), timeout)] *)
  wait_elementsLocated : By -> string -> Z -> W -> (error + list E) * W;
  (** [scope.findElement(by, locator)]; the scope [None] is the driver *)
  findElement : option E -> By -> string -> W -> (error + E) * W;
  getText : E -> W -> (error + string) * W;
  click : E -> W -> (error + unit) * W;
  clear : E -> W -> (error + unit) * W;
  sendKeys : E -> string -> W -> (error + unit) * W;
  submit : E -> W -> (error + unit) * W;
  (** [driver.get(url)] *)
  driver_get : string -> W -> (error + unit) * W;
  (** time passing: [setTimeout] and [driver.sleep] *)
  elapse : Z -> W -> W;
  (** [driver.quit()]: the call rejects when the session cannot be
      closed (a dead driver, a lost connection) *)
  driver_quit : W -> (error + unit) * W;
  (** [new Date()]: [getMonth()] (0-based) and [getFullYear()] *)
  date_now : W -> Z * Z;
  (** [process.env[name]] *)
  getenv : string -> option string;
  (** [process.cwd()] *)
  cwd : string;
  (** [new URL(relative, base).href], or the TypeError of an invalid URL *)
  new_URL : string -> string -> error + string;
  (** [fs.mkdirSync(path, { recursive: true })] *)
  fs_mkdir : string -> W -> (error + unit) * W;
  (** [fs.writeFileSync(path, JSON.stringify(data, null, 2))] *)
  fs_writeJson : string -> aggregate -> W -> (error + unit) * W
}.

(** Console output and the calls whose order and number matter. A
    probe is recorded with its answer, a navigation with its address, and
    a call of [driver.quit()] with the way it settled: [Some (inr tt)]
    when the awaited call resolved, [Some (inl e)] when it rejected with
    [e], [None] when the call was made without being awaited. *)
Inductive severity := Success | Warning | Failure.

Inductive event :=
| Log (sev : severity) (msg : string)
| HttpGet (url : string) (timeout : Z) (response : error + Z)
| Timer (ms : Z)
| Visit (url : string)
| Teardown (outcome : option (error + unit)).

Record state (W : Type) := mkState {
  world : W;
  trace : list event
}.
Arguments mkState {W} world trace.
Arguments world {W} s.
Arguments trace {W} s.

(** ** The monad of asynchronous code *)

Definition M (W : Type) (A : Type) : Type := state W -> result A * state W.

#[global] Instance M_ret {W} : MRet (M W) := fun A a s => (Ret a, s).

#[global] Instance M_bind {W} : MBind (M W) := fun A B f m s =>
  match m s with
  | (Ret a, s') => f a s'
  | (Throw e, s') => (Throw e, s')
  | (Exit c, s') => (Exit c, s')
  end.

Definition throw {W A} (e : error) : M W A := fun s => (Throw e, s).

(** [process.exit(code)] *)
Definition exit {W A} (code : Z) : M W A := fun s => (Exit code, s).

(** [try { m } catch (error) { h error }]: a process exit is not caught. *)
Definition try_catch {W A} (m : M W A) (h : error -> M W A) : M W A := fun s =>
  match m s with
  | (Throw e, s') => h e s'
  | r => r
  end.

(** [try { m } finally { f }]: [f] runs after a value and after a throw,
    not when the process has exited. *)
Definition try_finally {W A} (m : M W A) (f : M W unit) : M W A := fun s =>
  match m s with
  | (Ret a, s') =>
      match f s' with
      | (Ret _, s'') => (Ret a, s'')
      | (Throw e, s'') => (Throw e, s'')
      | (Exit c, s'') => (Exit c, s'')
      end
  | (Throw e, s') =>
      match f s' with
      | (Ret _, s'') => (Throw e, s'')
      | (Throw e', s'') => (Throw e', s'')
      | (Exit c, s'') => (Exit c, s'')
      end
  | (Exit c, s') => (Exit c, s')
  end.

Definition emit {W} (ev : event) : M W unit := fun s =>
  (Ret tt, mkState (world s) (trace s ++ [ev])).

(** An outside call that can reject. *)
Definition call {W A} (op : W -> (error + A) * W) : M W A := fun s =>
  match op (world s) with
  | (inl e, w) => (Throw e, mkState w (trace s))
  | (inr a, w) => (Ret a, mkState w (trace s))
  end.

(** An outside call that cannot reject. *)
Definition act {W} (op : W -> W) : M W unit := fun s =>
  (Ret tt, mkState (op (world s)) (trace s)).

Definition observe {W A} (f : W -> A) : M W A := fun s => (Ret (f (world s)), s).

(** The events a run appended to the trace. *)
Definition emitted {W} (s s' : state W) : list event :=
  drop (length (trace s)) (trace s').

(** [for (const x of xs) { acc = body acc x }] *)
Fixpoint forEach {W A X} (body : A -> X -> M W A) (xs : list X) (acc : A) : M W A :=
  match xs with
  | [] => mret acc
  | x :: xs' => acc' ← body acc x; forEach body xs' acc'
  end.

(** ** The program *)

Section Program.
Context {W E By : Type} `{!Browser W E By}.

(** [process.env.TAMS_BASE_URL], checked to be set before [main] runs. *)
Variable nav_url : string.

Definition global_timeout : Z := 10000.

Definition printSuccess (message : string) : M W unit := emit (Log Success message).
Definition printError (message : string) : M W unit := emit (Log Failure message).
Definition printWarning (message : string) : M W unit := emit (Log Warning message).

(** [await driver.quit()]: a rejection is thrown at the [await]. *)
Definition quit : M W unit := fun s =>
  let (r, w) := driver_quit (world s) in
  let s' := mkState w (trace s ++ [Teardown (Some r)]) in
  match r with
  | inl e => (Throw e, s')
  | inr _ => (Ret tt, s')
  end.

(** [driver.quit()] without [await] (line 112): the call is made and its
    promise is dropped; the statement that follows runs before the call
    can settle, so nothing of its outcome is seen and the world is left
    as it is. *)
Definition quitDetached : M W unit := emit (Teardown None).

(** [await new Promise((resolve) => setTimeout(resolve, ms))] and
    [await driver.sleep(ms)] *)
Definition sleep (ms : Z) : M W unit := emit (Timer ms);; act (elapse ms).

(** [await axios.get(url, { timeout })], giving [response.status] *)
Definition httpGet (url : string) (timeout : Z) : M W Z := fun s =>
  let (r, w) := axios_get url timeout (world s) in
  let s' := mkState w (trace s ++ [HttpGet url timeout r]) in
  match r with
  | inl e => (Throw e, s')
  | inr status => (Ret status, s')
  end.

(** A method call on a located value: only a single element has the
    methods of a WebElement. *)
Definition invoke {A} (v : located E) (method : E -> W -> (error + A) * W) : M W A :=
  match v with
  | One e => call (method e)
  | _ => throw (typeError "not a function")
  end.

(** [for (const x of v)]: only an array is iterable. *)
Definition iterate (v : located E) : M W (list E) :=
  match v with
  | Many es => mret es
  | _ => throw (typeError "not iterable")
  end.

(** *** Connectivity check (lines 59-85) *)

(** One turn of the [for] loop body up to the retry pause: [Some true]
    when the function returned from inside the loop. *)
Definition attemptOnce (url : string) (timeout : Z) (retries attempt : nat)
  : M W (option bool) :=
  try_catch
    (status ← httpGet url timeout;
     if (status =? 200)%Z then
       printSuccess "Internet connection verified.";; mret (Some true)
     else
       printError ("Received unexpected status code: " ++ pretty status);;
       mret None)
    (fun error =>
       (if String.eqb (err_code error) "ECONNABORTED" then
          printError ("Attempt " ++ pretty attempt ++ "/" ++ pretty retries
                      ++ " failed: Request timed out.")
        else
          printError ("Attempt " ++ pretty attempt ++ "/" ++ pretty retries
                      ++ " failed: Connection error: " ++ err_message error));;
       mret None).

(** [for (let attempt = ...; attempt <= retries; attempt++)]; [fuel]
    bounds the number of turns and is never the reason the loop ends
    when it is at least [retries]. *)
Fixpoint attemptLoop (url : string) (timeout : Z) (retries : nat)
    (fuel attempt : nat) : M W (option bool) :=
  match fuel with
  | O => mret None
  | S fuel' =>
      if (attempt <=? retries)%nat then
        r ← attemptOnce url timeout retries attempt;
        match r with
        | Some b => mret (Some b)
        | None =>
            (if (attempt <? retries)%nat then
               printWarning "Retrying in 1 second...";; sleep 1000
             else mret tt);;
            attemptLoop url timeout retries fuel' (S attempt)
        end
      else mret None
  end.

Definition checkInternet (url : string) (timeout : Z) (retries : nat) : M W bool :=
  r ← attemptLoop url timeout retries retries 1;
  match r with
  | Some b => mret b
  | None =>
      printError "Failed to establish internet connection after multiple attempts.";;
      quit;;
      exit 1
  end.

(** *** Navigation (lines 88-103) *)

Definition filingKeywords : list string := ["overtime"; "officialbusiness"; "leave"].

(** [new URL(relative, base).href] *)
Definition resolveUrl (relative base : string) : M W string :=
  match new_URL relative base with
  | inl e => throw e
  | inr href => mret href
  end.

Definition navigate (url : string) : M W unit :=
  full_url ←
    (if existsb (fun keyword => includes keyword (toLowerCase url)) filingKeywords then
       resolveUrl ("filing/" ++ url) nav_url
     else
       resolveUrl url nav_url);
  try_catch
    (emit (Visit full_url);; call (driver_get full_url))
    (fun error =>
       printError ("Error navigating to " ++ full_url ++ ": " ++ err_message error);;
       quit;;
       exit 1).

(** *** Element locator (lines 119-152) *)

Definition processElement (parent : located E) (by_ : By) (locator : option string)
    (multiple : bool) (timeout : Z) : M W (located E) :=
  match locator with
  | None | Some EmptyString =>
      printError "Locator must be provided.";; mret Null
  | Some loc =>
      (* const searchParent = parent || driver: [Null] stands for the driver *)
      let searchParent := parent in
      try_catch
        (if multiple then
           elements ← call (wait_elementsLocated by_ loc timeout);
           mret (Many elements)
         else
           element ← call (wait_elementLocated by_ loc timeout);
           found ←
             match searchParent with
             | Null => call (findElement None by_ loc)
             | One p => call (findElement (Some p) by_ loc)
             | Many _ => throw (typeError "searchParent.findElement is not a function")
             end;
           mret (One found))
        (fun error =>
           if String.eqb (err_name error) "TimeoutError" then mret Null
           else if String.eqb (err_name error) "NoSuchElementError" then
             printWarning ("Element not found: " ++ loc ++ " by " ++ showBy by_);;
             mret Null
           else
             printError ("Error processing element '" ++ loc ++ "' by " ++ showBy by_
                         ++ ": " ++ err_message error);;
             mret Null)
  end.

(** *** Table parser (lines 155-210) *)

(** Lines 176-180: the normalized text of every header cell. *)
Definition readHeaders (headerElems : located E) : M W (list string) :=
  es ← iterate headerElems;
  forEach (fun headers headerElem =>
             text ← call (getText headerElem);
             mret (headers ++ [normalizeHeader text])%list)
          es [].

(** [obj[name] = value] for a string [value] on an object created by
    [{}]: the name becomes an own property, except [__proto__], which is
    the accessor inherited from [Object.prototype]: its setter ignores a
    value that is neither an object nor [null], and no property is
    created. *)
Definition setProperty (name value : string) (obj : record) : record :=
  if String.eqb name "__proto__" then obj else <[name := value]> obj.

(** Lines 198-205: the inner [for] loop, from index [i] on, over the
    headers not yet visited. *)
Fixpoint rowFields (cells : located E) (i : nat) (headers : list string)
    (rowData : record) : M W record :=
  match headers with
  | [] => mret rowData
  | header :: rest =>
      if excludedHeader header then rowFields cells (S i) rest rowData
      else
        cellText ←
          match elementAt cells i with
          | Some cell => text ← call (getText cell); mret (trim text)
          | None => mret ""
          end;
        rowFields cells (S i) rest (setProperty header cellText rowData)
  end.

(** Lines 193-207: one turn of the loop over the rows. *)
Definition parseRow (headers : list string) (tableData : list record) (row : E)
  : M W (list record) :=
  cells ← processElement (One row) By_TAG_NAME (Some "td") true global_timeout;
  if negb (truthy cells) then mret tableData
  else
    rowData ← rowFields cells 0 headers ∅;
    mret (tableData ++ [rowData])%list.

Definition scrapeTableData (url : string) : M W (list record) :=
  let tableData : list record := [] in
  table ← processElement Null By_TAG_NAME (Some "table") false global_timeout;
  if negb (truthy table) then printError "Table not found.";; mret tableData
  else
  header ← processElement table By_TAG_NAME (Some "thead") false global_timeout;
  if negb (truthy header) then printError "Table header not found.";; mret tableData
  else
  headerElems ← processElement header By_TAG_NAME (Some "th") true global_timeout;
  if negb (truthy headerElems) then printError "Table headers not found.";; mret tableData
  else
  headers ← readHeaders headerElems;
  tbody ← processElement table By_TAG_NAME (Some "tbody") false global_timeout;
  if negb (truthy tbody) then printError "Table body not found.";; mret tableData
  else
  rows ← processElement tbody By_TAG_NAME (Some "tr") true global_timeout;
  if negb (truthy rows) then mret tableData
  else
  rs ← iterate rows;
  forEach (parseRow headers) rs tableData.

(** *** Login (lines 213-270) *)

(** The body of the loop over ['username'] and ['password']. *)
Definition fillCredential (loginForm : located E) (_ : unit) (value : string)
  : M W unit :=
  match getenv (toUpperCase value) with
  | None | Some EmptyString =>
      printError ("Environment variable '" ++ toUpperCase value ++ "' not set.");;
      quit;;
      exit 1
  | Some inputValue =>
      inputElement ← processElement loginForm By_NAME (Some value) false global_timeout;
      if negb (truthy inputElement) then
        printError ("Login input '" ++ value ++ "' not found.");;
        quit;;
        exit 1
      else
        invoke inputElement clear;;
        invoke inputElement (fun e => sendKeys e inputValue)
  end.

Definition login : M W unit :=
  try_catch
    (loginForm ← processElement Null By_ID (Some "login-form") false global_timeout;
     (if negb (truthy loginForm) then
        printError "Login form not found.";; quit;; exit 1
      else mret tt);;
     forEach (fillCredential loginForm) ["username"; "password"] tt;;
     submitButton ←
       processElement loginForm By_XPATH (Some ".//button[@type='submit']") false
         global_timeout;
     (if truthy submitButton then
        try_catch (invoke submitButton click) (fun _ => invoke loginForm submit)
      else invoke loginForm submit);;
     loginSuccess ← processElement Null By_ID (Some "employee_id") false global_timeout;
     if truthy loginSuccess then printSuccess "Login successful!"
     else
       printError "Login failed: 'employee_id' element not found.";;
       quit;;
       exit 1)
    (fun error =>
       printError ("Failed to login: " ++ err_message error);;
       quit;;
       exit 1).

(** *** Report driver (lines 284-394) *)

Definition urlList : list string :=
  ["attendance"; "overtime"; "officialbusiness"; "leave"].

(** A guarded step of the attendance loop: [false] stands for the
    [continue] of its [catch] or [else] branch. *)
Definition guarded (step : M W unit) (onError : error -> M W unit) : M W bool :=
  try_catch (step;; mret true) (fun error => onError error;; mret false).

(** Lines 300-380: the body of the loop over the three increments;
    [tableData] is the array the scraped pages are pushed onto. *)
Definition attendancePass (url : string) (currentMonth currentYear : Z)
    (tableData : list (list record)) (increment : Z) : M W (list (list record)) :=
  let selected := showOpt (selectedMonth currentMonth increment) in
  let year := adjustedYear currentMonth currentYear increment in
  monthSelect ← processElement Null By_ID (Some "month") false global_timeout;
  yearInput ← processElement Null By_NAME (Some "year") false global_timeout;
  if truthy monthSelect && truthy yearInput then
    opened ← guarded (invoke monthSelect click)
      (fun error => printError ("Error clicking month selector: " ++ err_message error));
    if negb opened then mret tableData else
    monthOption ←
      processElement monthSelect By_XPATH
        (Some (".//option[contains(text(), '" ++ selected ++ "')]")) false global_timeout;
    chosen ←
      (if truthy monthOption then
         guarded (invoke monthOption click)
           (fun error => printError ("Error selecting month '" ++ selected ++ "': "
                                     ++ err_message error))
       else
         printWarning ("Month option '" ++ selected ++ "' not found.");; mret false);
    if negb chosen then mret tableData else
    typed ← guarded (invoke yearInput clear;;
                     invoke yearInput (fun e => sendKeys e (pretty year)))
      (fun error => printWarning ("Error setting year '" ++ pretty year ++ "': "
                                  ++ err_message error));
    if negb typed then mret tableData else
    searchBtn ←
      processElement Null By_XPATH
        (Some "//button[@type='submit' and contains(text(), 'Search')]") false
        global_timeout;
    searched ←
      (if truthy searchBtn then
         guarded (invoke searchBtn click;; sleep 2000)
           (fun error => printWarning ("Error clicking search button: "
                                       ++ err_message error))
       else
         printWarning "Search button not found.";; mret false);
    if negb searched then mret tableData else
    scrapedData ← scrapeTableData url;
    if (0 <? length scrapedData)%nat then mret (tableData ++ [scrapedData])%list
    else mret tableData
  else
    printError "Month selector or year input not found.";;
    mret tableData.

(** Lines 289-386: the pages scraped for one report, as pushed onto
    [tableData]. *)
Definition driveReport (url : string) : M W (list (list record)) :=
  let tableData : list (list record) := [] in
  if includes "attendance" (toLowerCase url) then
    now ← observe date_now;
    let currentMonth := (fst now + 1)%Z in
    let currentYear := snd now in
    forEach (attendancePass url currentMonth currentYear) [-1; 0; 1]%Z tableData
  else
    scrapedData ← scrapeTableData url;
    if (0 <? length scrapedData)%nat then mret (tableData ++ [scrapedData])%list
    else mret tableData.

(** Lines 287-394: one turn of the loop over [urlList]; [url] is one of
    its four names, none of which is a special property name. *)
Definition reportStep (mainTableData : aggregate) (url : string) : M W aggregate :=
  navigate url;;
  tableData ← driveReport url;
  if (0 <? length tableData)%nat then
    let flattened := concat tableData in
    printSuccess ("Successfully scraped " ++ capitalizeFirst url ++ " table.");;
    mret (<[url := flattened]> mainTableData)
  else mret mainTableData.

Definition collectReports : M W aggregate :=
  forEach reportStep urlList ∅.

(** *** Orchestration (lines 106-116 and 273-415) *)

(** [path.join] of plain segments *)
Definition pathJoin (a b : string) : string := a ++ "/" ++ b.

Definition validateAndCreatePath (customPath : option string) : M W string :=
  let targetPath :=
    match customPath with
    | None | Some EmptyString => pathJoin (pathJoin cwd "src") "assets"
    | Some p => p
    end in
  try_catch
    (call (fs_mkdir targetPath))
    (fun error =>
       printError ("Error creating directory '" ++ targetPath ++ "': "
                   ++ err_message error);;
       quitDetached;;
       exit 1);;
  mret targetPath.

(** Lines 275-279: the guard on the connectivity check. *)
Definition connectivityGate : M W unit :=
  online ← checkInternet nav_url global_timeout 3;
  if negb online then
    printError "No internet connection. Please check your connection and try again.";;
    quit;;
    exit 1
  else mret tt.

(** Lines 396-409 *)
Definition persist (mainTableData : aggregate) : M W unit :=
  if (0 <? size mainTableData)%nat then
    assetsPath ← validateAndCreatePath None;
    let jsonPath := pathJoin assetsPath "data.json" in
    try_catch
      (call (fs_writeJson jsonPath mainTableData);;
       (* path.relative(process.cwd(), jsonPath) *)
       printSuccess ("Success! Data saved to: " ++ "src/assets/data.json"))
      (fun error => printError ("Error saving data to file: " ++ err_message error))
  else printError "No data collected from any of the URLs.".

Definition main : M W unit :=
  try_finally
    (try_catch
       (connectivityGate;;
        navigate "Auth";;
        login;;
        mainTableData ← collectReports;
        persist mainTableData)
       (fun error => printError ("An unexpected error occurred: " ++ err_message error)))
    quit.

End Program.

(** ** Variations of a driver *)

(** The same driver with another environment. *)
Definition withEnv {W E By : Type} (env : string -> option string) (B : Browser W E By)
  : Browser W E By := {|
  By_ID := @By_ID W E By B;
  By_NAME := @By_NAME W E By B;
  By_TAG_NAME := @By_TAG_NAME W E By B;
  By_XPATH := @By_XPATH W E By B;
  showBy := @showBy W E By B;
  axios_get := @axios_get W E By B;
  wait_elementLocated := @wait_elementLocated W E By B;
  wait_elementsLocated := @wait_elementsLocated W E By B;
  findElement := @findElement W E By B;
  getText := @getText W E By B;
  click := @click W E By B;
  clear := @clear W E By B;
  sendKeys := @sendKeys W E By B;
  submit := @submit W E By B;
  driver_get := @driver_get W E By B;
  elapse := @elapse W E By B;
  driver_quit := @driver_quit W E By B;
  date_now := @date_now W E By B;
  getenv := env;
  cwd := @cwd W E By B;
  new_URL := @new_URL W E By B;
  fs_mkdir := @fs_mkdir W E By B;
  fs_writeJson := @fs_writeJson W E By B
|}.

(** The same driver with another [driver.quit()]. *)
Definition withQuit {W E By : Type} (q : W -> (error + unit) * W) (B : Browser W E By)
  : Browser W E By := {|
  By_ID := @By_ID W E By B;
  By_NAME := @By_NAME W E By B;
  By_TAG_NAME := @By_TAG_NAME W E By B;
  By_XPATH := @By_XPATH W E By B;
  showBy := @showBy W E By B;
  axios_get := @axios_get W E By B;
  wait_elementLocated := @wait_elementLocated W E By B;
  wait_elementsLocated := @wait_elementsLocated W E By B;
  findElement := @findElement W E By B;
  getText := @getText W E By B;
  click := @click W E By B;
  clear := @clear W E By B;
  sendKeys := @sendKeys W E By B;
  submit := @submit W E By B;
  driver_get := @driver_get W E By B;
  elapse := @elapse W E By B;
  driver_quit := q;
  date_now := @date_now W E By B;
  getenv := @getenv W E By B;
  cwd := @cwd W E By B;
  new_URL := @new_URL W E By B;
  fs_mkdir := @fs_mkdir W E By B;
  fs_writeJson := @fs_writeJson W E By B
|}.


(** ** A concrete world: static pages as trees

    Selenium is not part of the repository. The program calls it with a
    strategy and a value, [elementLocated(by, locator)] and
    [findElement(by, locator)], and names its strategies [By.ID],
    [By.NAME], [By.TAG_NAME] and [By.XPATH]. [Fixture.fixtureBrowser] is
    a driver with that interface: it reads the search off a document
    tree, so that the program can be run on concrete pages. An element
    handle is the path from the root of the document to the element.
    [Package.browser] further down is the driver as the imported
    JavaScript package has it. *)

Module Fixture.

(** The four strategies of a driver that is called with a strategy and
    a value. *)
Inductive strategy := ById | ByName | ByTagName | ByXPath.

Definition showStrategy (by_ : strategy) : string :=
  match by_ with
  | ById => "id"
  | ByName => "name"
  | ByTagName => "tag name"
  | ByXPath => "xpath"
  end.

Inductive node :=
| Node (tag : string) (attrs : list (string * string)) (text : string)
       (children : list node).

Definition handle := list nat.

Definition tagOf (n : node) : string := let 'Node t _ _ _ := n in t.
Definition textOf (n : node) : string := let 'Node _ _ t _ := n in t.
Definition childrenOf (n : node) : list node := let 'Node _ _ _ cs := n in cs.

Fixpoint assoc (key : string) (kvs : list (string * string)) : option string :=
  match kvs with
  | [] => None
  | (k, v) :: rest => if String.eqb k key then Some v else assoc key rest
  end.

Definition attrOf (name : string) (n : node) : option string :=
  let 'Node _ attrs _ _ := n in assoc name attrs.

Definition attrIs (name value : string) (n : node) : bool :=
  match attrOf name n with
  | Some v => String.eqb v value
  | None => false
  end.

(** The node a handle points to. *)
Fixpoint nodeAt (p : handle) (n : node) : option node :=
  match p with
  | [] => Some n
  | i :: p' =>
      match childrenOf n !! i with
      | Some c => nodeAt p' c
      | None => None
      end
  end.

(** The element at [p] and everything below it, in document order. *)
Fixpoint subtree (p : handle) (n : node) : list (handle * node) :=
  match n with
  | Node _ _ _ cs =>
      (p, n) ::
      (fix walk (i : nat) (cs : list node) : list (handle * node) :=
         match cs with
         | [] => []
         | c :: cs' => (subtree (p ++ [i]) c ++ walk (S i) cs')%list
         end) 0%nat cs
  end.

Definition isSubmitButton (n : node) : bool :=
  String.eqb (tagOf n) "button" && attrIs "type" "submit" n.

(** The three shapes of XPath the program uses. *)
Definition optionPrefix : string := ".//option[contains(text(), '".

Definition xpathTest (loc : string) : option (node -> bool) :=
  if String.eqb loc ".//button[@type='submit']" then Some isSubmitButton
  else if String.eqb loc "//button[@type='submit' and contains(text(), 'Search')]" then
    Some (fun n => isSubmitButton n && includes "Search" (textOf n))
  else if startsWith optionPrefix loc then
    let rest := substring (String.length optionPrefix)
                  (String.length loc - String.length optionPrefix) loc in
    let wanted := substring 0 (String.length rest - 3) rest in
    if String.eqb (substring (String.length rest - 3) 3 rest) "')]" then
      Some (fun n => String.eqb (tagOf n) "option" && includes wanted (textOf n))
    else None
  else None.

Definition matches (by_ : strategy) (loc : string) (n : node) : bool :=
  match by_ with
  | ById => attrIs "id" loc n
  | ByName => attrIs "name" loc n
  | ByTagName => String.eqb (tagOf n) loc
  | ByXPath =>
      match xpathTest loc with
      | Some test => test n
      | None => false
      end
  end.

(** An XPath that starts with [//] searches the whole document, also
    when it is evaluated from an element. *)
Definition absolute (by_ : strategy) (loc : string) : bool :=
  match by_ with
  | ByXPath => startsWith "//" loc
  | _ => false
  end.

Definition hits (by_ : strategy) (loc : string) (candidates : list (handle * node))
  : list handle :=
  map fst (List.filter (fun pn => matches by_ loc (snd pn)) candidates).

(** Everything in the document. *)
Definition everywhere (doc : node) : list (handle * node) := subtree [] doc.

(** What lies strictly below the element at [p]. *)
Definition below (p : handle) (doc : node) : list (handle * node) :=
  match nodeAt p doc with
  | Some n => tail (subtree p n)
  | None => []
  end.

Record staticWorld := mkWorld {
  doc : node;
  site : list (string * node);
  responses : list (error + Z);
  today : Z * Z;
  disk : option (string * aggregate)
}.

Definition withDoc (d : node) (w : staticWorld) : staticWorld :=
  mkWorld d (site w) (responses w) (today w) (disk w).

Definition timeoutError : error :=
  mkError "TimeoutError" "" "Wait timed out".
Definition noSuchElementError : error :=
  mkError "NoSuchElementError" "" "no such element".
Definition staleError : error :=
  mkError "StaleElementReferenceError" "" "stale element reference".
Definition networkError : error :=
  mkError "Error" "ENOTFOUND" "getaddrinfo ENOTFOUND".
Definition unreachablePage : error :=
  mkError "WebDriverError" "" "net::ERR_NAME_NOT_RESOLVED".
Definition sessionGone : error :=
  mkError "NoSuchSessionError" "" "invalid session id".

Fixpoint lookupPage (url : string) (pages : list (string * node)) : option node :=
  match pages with
  | [] => None
  | (u, d) :: rest => if String.eqb u url then Some d else lookupPage url rest
  end.

(** [driver.wait(until.elementLocated(...))] on a page that no longer
    changes: the first hit in the document, or a timeout. *)
Definition locateFirst (d : node) (by_ : strategy) (loc : string) : error + handle :=
  match hits by_ loc (everywhere d) with
  | h :: _ => inr h
  | [] => inl timeoutError
  end.

(** [driver.wait(until.elementsLocated(...))]: every hit in the
    document once there is one, or a timeout. *)
Definition locateAll (d : node) (by_ : strategy) (loc : string) : error + list handle :=
  match hits by_ loc (everywhere d) with
  | [] => inl timeoutError
  | hs => inr hs
  end.

(** [scope.findElement(...)]: the first hit below the scope. *)
Definition findFrom (d : node) (scope : option handle) (by_ : strategy) (loc : string)
  : error + handle :=
  let candidates :=
    match scope with
    | None => everywhere d
    | Some p => if absolute by_ loc then everywhere d else below p d
    end in
  match hits by_ loc candidates with
  | h :: _ => inr h
  | [] => inl noSuchElementError
  end.

Definition textAt (d : node) (h : handle) : error + string :=
  match nodeAt h d with
  | Some n => inr (textOf n)
  | None => inl staleError
  end.

Definition credentials (name : string) : option string :=
  if String.eqb name "USERNAME" then Some "employee"
  else if String.eqb name "PASSWORD" then Some "secret"
  else None.

(** A site of static pages: probes are answered from a script,
    navigation swaps the document, clicks and keys change nothing, the
    session closes when asked to. *)
#[global] Instance fixtureBrowser : Browser staticWorld handle strategy := {|
  By_ID := ById;
  By_NAME := ByName;
  By_TAG_NAME := ByTagName;
  By_XPATH := ByXPath;
  showBy := showStrategy;
  axios_get := fun _ _ w =>
    match responses w with
    | [] => (inl networkError, w)
    | r :: rest => (r, mkWorld (doc w) (site w) rest (today w) (disk w))
    end;
  wait_elementLocated := fun by_ loc _ w => (locateFirst (doc w) by_ loc, w);
  wait_elementsLocated := fun by_ loc _ w => (locateAll (doc w) by_ loc, w);
  findElement := fun scope by_ loc w => (findFrom (doc w) scope by_ loc, w);
  getText := fun h w => (textAt (doc w) h, w);
  click := fun _ w => (inr tt, w);
  clear := fun _ w => (inr tt, w);
  sendKeys := fun _ _ w => (inr tt, w);
  submit := fun _ w => (inr tt, w);
  driver_get := fun url w =>
    match lookupPage url (site w) with
    | Some d => (inr tt, withDoc d w)
    | None => (inl unreachablePage, w)
    end;
  elapse := fun _ w => w;
  driver_quit := fun w => (inr tt, w);
  date_now := today;
  getenv := credentials;
  cwd := "/app";
  new_URL := fun relative base => inr (base ++ relative);
  fs_mkdir := fun _ w => (inr tt, w);
  fs_writeJson := fun path data w =>
    (inr tt, mkWorld (doc w) (site w) (responses w) (today w) (Some (path, data)))
|}.

(** Building blocks of pages. *)
Definition el (tag : string) (children : list node) : node := Node tag [] "" children.
Definition leaf (tag text : string) : node := Node tag [] text [].

Definition tableOf (headers : list string) (rows : list (list string)) : node :=
  el "table"
    [ el "thead" [ el "tr" (map (leaf "th") headers) ];
      el "tbody" (map (fun cells => el "tr" (map (leaf "td") cells)) rows) ].

Definition page (body : list node) : node := el "html" [ el "body" body ].

Definition base : string := "http://tams.test/".

Definition authPage : node :=
  page [ Node "form" [("id", "login-form")] ""
           [ Node "input" [("name", "username")] "" [];
             Node "input" [("name", "password")] "" [];
             Node "button" [("type", "submit")] "Sign in" [] ];
         Node "span" [("id", "employee_id")] "E-1" [] ].

Definition monthControls : list node :=
  [ Node "select" [("id", "month")] "" (map (leaf "option") months);
    Node "input" [("name", "year")] "" [];
    Node "button" [("type", "submit")] "Search" [] ].

Definition start (pages : list (string * node)) (rs : list (error + Z))
    (now : Z * Z) : state staticWorld :=
  mkState (mkWorld (page []) pages rs now None) [].

(** The browser showing document [d], nothing else set up. *)
Definition showing (d : node) : state staticWorld :=
  mkState (mkWorld d [] [] (0, 2024)%Z None) [].


(** A table of two full rows. *)
Definition weekPage : node :=
  page [ tableOf ["Day"; "Hours"] [["mon"; "8"]; ["tue"; "7"]] ].

(** The same table with a second row of one cell only. *)
Definition raggedPage : node :=
  page [ tableOf ["Day"; "Hours"] [["mon"; "8"]; ["tue"]] ].


(** The scenario of a table with an action column and one row. *)
Definition attendancePage : node :=
  page (monthControls ++
        [ tableOf ["Date"; "Time In"; "Action"] [["2024-01-05"; "08:00"; "Edit"]] ])%list.

(** A table whose only row has fewer cells than there are headers. *)
Definition shortRowPage : node :=
  page [ tableOf ["Date"; "Hours"; "Action"] [["2024-01-05"]] ].

Definition portal : list (string * node) :=
  [ (base ++ "Auth", authPage);
    (base ++ "attendance", attendancePage);
    (base ++ "filing/overtime", weekPage);
    (base ++ "filing/officialbusiness", page []);
    (base ++ "filing/leave", page [ tableOf ["Date"; "Reason"] [] ]) ].

(** The fixture browser shows document [d]. *)
Definition showsDoc (d : node) (w : staticWorld) : Prop := doc w = d.

(** A table with a header cell that reads [__proto__]. *)
Definition protoPage : node :=
  page [ tableOf ["Date"; "__proto__"] [["2024-01-05"; "x"]] ].

(** The fixture with a session that is gone: every [driver.quit()]
    rejects. *)
Definition deadSession : Browser staticWorld handle strategy :=
  withQuit (fun w => (inl sessionGone, w)) fixtureBrowser.





(** The value of a run that returned, [fallback] otherwise. *)
Definition valueOr {A} (fallback : A) (r : result A) : A :=
  match r with
  | Ret a => a
  | _ => fallback
  end.

End Fixture.

(** ** The driver of the imported package

    The [By] of the JavaScript package [selenium-webdriver] has factory
    methods ([By.css], [By.tagName], [By.xpath], ...) and no constants:
    [By.ID], [By.NAME], [By.TAG_NAME] and [By.XPATH] are [undefined].
    [until.elementLocated], [until.elementsLocated] and [findElement]
    take one argument, a locator; they refuse anything else with the
    TypeError [Invalid locator] and ignore a second argument. The
    package is not part of the repository: this instance is its
    documented behaviour on the document trees of the fixture. *)

Module Package.
Import Fixture.

(** What the factories build: [By.css(selector)], which is also what
    [By.tagName(name)] returns, and [By.xpath(expr)]. *)
Inductive locator :=
| Css (selector : string)
| XPath (expr : string).

(** The search a locator stands for. Of the selectors only tag names
    are modelled. *)
Definition strategyOf (l : locator) : strategy * string :=
  match l with
  | Css selector => (ByTagName, selector)
  | XPath expr => (ByXPath, expr)
  end.

Definition invalidLocator : error := typeError "Invalid locator".

(** The check every search starts with; [None] is [undefined]. *)
Definition checked {A} (by_ : option locator) (search : strategy -> string -> error + A)
  : error + A :=
  match by_ with
  | None => inl invalidLocator
  | Some l => search (fst (strategyOf l)) (snd (strategyOf l))
  end.

Definition browser : Browser staticWorld handle (option locator) := {|
  By_ID := None;
  By_NAME := None;
  By_TAG_NAME := None;
  By_XPATH := None;
  showBy := fun by_ =>
    match by_ with
    | None => "undefined"
    | Some (Css selector) => "By(css selector, " ++ selector ++ ")"
    | Some (XPath expr) => "By(xpath, " ++ expr ++ ")"
    end;
  axios_get := @axios_get _ _ _ fixtureBrowser;
  wait_elementLocated := fun by_ _ _ w => (checked by_ (locateFirst (doc w)), w);
  wait_elementsLocated := fun by_ _ _ w => (checked by_ (locateAll (doc w)), w);
  findElement := fun scope by_ _ w => (checked by_ (findFrom (doc w) scope), w);
  getText := @getText _ _ _ fixtureBrowser;
  click := @click _ _ _ fixtureBrowser;
  clear := @clear _ _ _ fixtureBrowser;
  sendKeys := @sendKeys _ _ _ fixtureBrowser;
  submit := @submit _ _ _ fixtureBrowser;
  driver_get := @driver_get _ _ _ fixtureBrowser;
  elapse := @elapse _ _ _ fixtureBrowser;
  driver_quit := @driver_quit _ _ _ fixtureBrowser;
  date_now := @date_now _ _ _ fixtureBrowser;
  getenv := @getenv _ _ _ fixtureBrowser;
  cwd := @cwd _ _ _ fixtureBrowser;
  new_URL := @new_URL _ _ _ fixtureBrowser;
  fs_mkdir := @fs_mkdir _ _ _ fixtureBrowser;
  fs_writeJson := @fs_writeJson _ _ _ fixtureBrowser
|}.

End Package.

(** * Vocabulary of the statements *)

(** A string that does not start with white space. *)
Definition startsClean (s : string) : bool :=
  match s with
  | EmptyString => true
  | String c _ => negb (isWhiteSpace c)
  end.

(** The three character maps of [normalizeHeader] in one. *)
Definition normalizeChar (c : ascii) : ascii :=
  lowerChar (if Ascii.eqb (if Ascii.eqb c newline then space else c) space
             then underscore
             else (if Ascii.eqb c newline then space else c)).

(** The scope a single-element search is run from: the parent element,
    or the driver when there is none. *)
Definition scopeOf {E : Type} (parent : located E) : option E :=
  match parent with
  | One p => Some p
  | _ => None
  end.

(** The outside calls among the events of a run: everything but the
    console output. *)
Definition isCall (ev : event) : bool :=
  match ev with
  | Log _ _ => false
  | _ => true
  end.

Definition calls (evs : list event) : list event := List.filter isCall evs.

(** Probes of [url] answered by [responses], one timer of a second
    between two consecutive probes. *)
Definition schedule (url : string) (timeout : Z) (responses : list (error + Z))
  : list event :=
  match responses with
  | [] => []
  | r :: rest =>
      HttpGet url timeout r ::
      flat_map (fun r' => [Timer 1000; HttpGet url timeout r']) rest
  end.

(** The status codes HTTP calls successful. *)
Definition httpSuccess (status : Z) : Prop := (200 <= status < 300)%Z.

(** A probe answered with status 200. *)
Definition answered200 (response : error + Z) : bool :=
  match response with
  | inr status => (status =? 200)%Z
  | inl _ => false
  end.

(** A header the row loop stores a field for: it is not excluded, and
    it is not the one name a plain object does not take. *)
Definition storedHeader (header : string) : bool :=
  negb (excludedHeader header) && negb (String.eqb header "__proto__").

(** The keys of a record built from [headers]. *)
Definition recordKeys (headers : list string) : gset string :=
  list_to_set (filter (fun h => storedHeader h = true) headers).

(** A property of every value a computation can return. *)
Definition returns {W A} (m : M W A) (P : A -> Prop) : Prop :=
  forall s a s', m s = (Ret a, s') -> P a.

(** Started where [Inv] holds of the world, the computation ends where
    [Inv] holds, and a value it returns satisfies [P]. *)
Definition holds {W A} (Inv : W -> Prop) (m : M W A) (P : A -> Prop) : Prop :=
  forall s r s', Inv (world s) -> m s = (r, s') ->
                 Inv (world s') /\ forall a, r = Ret a -> P a.

Definition anything {A} : A -> Prop := fun _ => True.

Definition allRows {A} (P : A -> Prop) (rows : list A) : Prop :=
  forall r, r ∈ rows -> P r.

(** The pages pushed onto [tableData]: none is empty, and each satisfies
    [P]. *)
Definition pagesAll {A} (P : list A -> Prop) (tableData : list (list A)) : Prop :=
  forall page, page ∈ tableData -> page <> [] /\ P page.

Section Vocabulary.
Context {W E By : Type} `{!Browser W E By}.
Variable nav_url : string.

(** [rowData] is what the parser made of some row: of the cells the
    locator returned for it, under the header list [headers]. *)
Definition parsedRow (headers : list string) (rowData : record) : Prop :=
  exists (row : E) (s0 : state W) (cells : located E) (s1 s2 : state W),
    processElement (One row) By_TAG_NAME (Some "td") true global_timeout s0
    = (Ret cells, s1) /\
    rowFields cells 0 headers ∅ s1 = (Ret rowData, s2).

(** The interactions of a report with its page leave [shown] in place:
    waiting, searching, reading, clicking and typing do not take the
    browser away from the page. *)
Class StablePage (shown : W -> Prop) : Prop := {
  stable_waitOne :
    forall by_ loc t w, shown w -> shown (snd (wait_elementLocated by_ loc t w));
  stable_waitAll :
    forall by_ loc t w, shown w -> shown (snd (wait_elementsLocated by_ loc t w));
  stable_find :
    forall scope by_ loc w, shown w -> shown (snd (findElement scope by_ loc w));
  stable_text : forall e w, shown w -> shown (snd (getText e w));
  stable_click : forall e w, shown w -> shown (snd (click e w));
  stable_clear : forall e w, shown w -> shown (snd (clear e w));
  stable_keys : forall e keys w, shown w -> shown (snd (sendKeys e keys w));
  stable_elapse : forall ms w, shown w -> shown (elapse ms w)
}.

(** The texts of [cells] were read one after the other, from state [s]
    to state [s']. *)
Inductive TextsRead : list E -> state W -> list string -> state W -> Prop :=
| TextsDone s : TextsRead [] s [] s
| TextRead cell cells s text s1 texts s' :
    call (getText cell) s = (Ret text, s1) ->
    TextsRead cells s1 texts s' ->
    TextsRead (cell :: cells) s (text :: texts) s'.

(** The rows were parsed one after the other under [headers], from state
    [s] to state [s']: [parsed] lists, for every row that was not
    skipped, the cells the locator returned for it and the record made of
    them. *)
Inductive RowsRun (headers : list string) :
  list E -> state W -> list (located E * record) -> state W -> Prop :=
| RowsDone s : RowsRun headers [] s [] s
| RowSkipped row rows s cells s1 parsed s' :
    processElement (One row) By_TAG_NAME (Some "td") true global_timeout s
    = (Ret cells, s1) ->
    truthy cells = false ->
    RowsRun headers rows s1 parsed s' ->
    RowsRun headers (row :: rows) s parsed s'
| RowParsed row rows s cells s1 rowData s2 parsed s' :
    processElement (One row) By_TAG_NAME (Some "td") true global_timeout s
    = (Ret cells, s1) ->
    truthy cells = true ->
    rowFields cells 0 headers ∅ s1 = (Ret rowData, s2) ->
    RowsRun headers rows s2 parsed s' ->
    RowsRun headers (row :: rows) s ((cells, rowData) :: parsed) s'.

(** One parse that got as far as the rows, from state [s] to state [s']:
    the table, its head and its header cells were found, the header cells
    read as [texts], the body and its rows were found, and the rows were
    parsed under the normalized texts. *)
Definition TableRun (s : state W) (texts : list string)
    (parsed : list (located E * record)) (s' : state W) : Prop :=
  exists table header headerElems tbody rows s1 s2 s3 s4 s5 s6,
    processElement Null By_TAG_NAME (Some "table") false global_timeout s
    = (Ret table, s1) /\
    processElement table By_TAG_NAME (Some "thead") false global_timeout s1
    = (Ret header, s2) /\
    processElement header By_TAG_NAME (Some "th") true global_timeout s2
    = (Ret (Many headerElems), s3) /\
    TextsRead headerElems s3 texts s4 /\
    processElement table By_TAG_NAME (Some "tbody") false global_timeout s4
    = (Ret tbody, s5) /\
    processElement tbody By_TAG_NAME (Some "tr") true global_timeout s5
    = (Ret (Many rows), s6) /\
    RowsRun (map normalizeHeader texts) rows s6 parsed s'.





(** The reports of [urls] were driven one after the other from state
    [s] to state [s']; [runs] lists, for each, the pages it pushed onto
    its [tableData]. *)
Inductive ReportsRun :
  list string -> state W -> list (string * list (list record)) -> state W -> Prop :=
| RunDone s : ReportsRun [] s [] s
| RunReport url urls s s1 s2 s3 tableData runs s' :
    navigate nav_url url s = (Ret tt, s1) ->
    driveReport url s1 = (Ret tableData, s2) ->
    (tableData = [] /\ s3 = s2 \/
     tableData <> [] /\
     printSuccess ("Successfully scraped " ++ capitalizeFirst url ++ " table.") s2
     = (Ret tt, s3)) ->
    ReportsRun urls s3 runs s' ->
    ReportsRun (url :: urls) s ((url, tableData) :: runs) s'.

(** The aggregate the loop over the reports builds from [runs]. *)
Definition aggregateOf (start : aggregate)
    (runs : list (string * list (list record))) : aggregate :=
  foldl (fun acc run =>
           match snd run with
           | [] => acc
           | _ => <[fst run := concat (snd run)]> acc
           end) start runs.

End Vocabulary.

(** ** Start-up (main.js, lines 27-41 and 424)

    [createSession] stands for building the driver service and creating
    the session; the base address is read from the environment before
    [main] is started. *)
Definition program {W E By : Type} `{!Browser W E By}
    (createSession : W -> (error + unit) * W) : M W unit :=
  try_catch
    (call createSession)
    (fun error =>
       emit (Log Failure ("Error initializing Chrome WebDriver: "
                          ++ err_name error ++ ": " ++ err_message error));;
       exit 1);;
  match getenv "TAMS_BASE_URL" with
  | None | Some EmptyString =>
      emit (Log Failure
              "Base URL is not set. Please set the 'TAMS_BASE_URL' in your .env file.");;
      quit;;
      exit 1
  | Some nav_url => main nav_url
  end.

(** ** Vocabulary of the further properties *)

(** Console output and timers. *)
Definition consoleOrTimer (ev : event) : bool :=
  match ev with
  | Log _ _ | Timer _ => true
  | _ => false
  end.

(** A call of [driver.quit()]. *)
Definition isTeardown (ev : event) : bool :=
  match ev with
  | Teardown _ => true
  | _ => false
  end.

(** The number of calls of [driver.quit()] among the events. *)
Definition teardowns (evs : list event) : nat := length (List.filter isTeardown evs).

(** What a run appended to the trace, and how it ended. *)
Definition traced {W A} (m : M W A) (Q : result A -> list event -> Prop) : Prop :=
  forall s r s', m s = (r, s') -> exists evs, trace s' = (trace s ++ evs)%list /\ Q r evs.

(** The run does not end the process and emits only events allowed by [P]. *)
Definition benign {W A} (P : event -> bool) (m : M W A) : Prop :=
  traced m (fun r evs => (forall c, r <> Exit c) /\ forallb P evs = true).

(** An error [driver.quit()] can reject with. *)
Definition quitFault {W E By : Type} `{!Browser W E By} (e : error) : Prop :=
  exists w : W, fst (driver_quit w) = inl e.

(** If the event is a call of [driver.quit()], the call was awaited and
    rejected. *)
Definition rejected {W E By : Type} `{!Browser W E By} (ev : event) : Prop :=
  match ev with
  | Teardown outcome => exists e, outcome = Some (inl e) /\ quitFault e
  | _ => True
  end.

(** What the way the last call of [driver.quit()] settled leaves to the
    run: a run that goes on returns after a call that resolved and throws
    what a call rejected with; the process is ended with code 1, after a
    call that resolved or, where [detached] allows for it, after one that
    was not awaited. *)
Definition verdict {A} (detached : bool) (r : result A)
    (outcome : option (error + unit)) : Prop :=
  match r with
  | Ret _ => outcome = Some (inr tt)
  | Throw e => outcome = Some (inl e)
  | Exit c => c = 1%Z /\ (outcome = Some (inr tt) \/ detached = true /\ outcome = None)
  end.

(** The run ends with a call of [driver.quit()] as its last event, every
    earlier call of it was rejected, and the last one, which rejected
    with nothing that [driver.quit()] does not reject with, decides how
    the run ends. *)
Definition wound {W E By : Type} `{!Browser W E By} {A} (detached : bool)
    (r : result A) (evs : list event) : Prop :=
  exists before outcome,
    evs = (before ++ [Teardown outcome])%list /\
    Forall rejected before /\
    (forall e, outcome = Some (inl e) -> quitFault e) /\
    verdict detached r outcome.

(** A run that returns has not called [driver.quit()]; one that ends the
    process is [wound]; one that throws has not called it or is [wound]. *)
Definition tidyEnd {W E By : Type} `{!Browser W E By} {A} (detached : bool)
    (r : result A) (evs : list event) : Prop :=
  match r with
  | Ret _ => teardowns evs = 0%nat
  | Throw _ => teardowns evs = 0%nat \/ wound detached r evs
  | Exit _ => wound detached r evs
  end.

(** The same, for a computation whose errors all end in
    [driver.quit()]: it throws only what that call rejected with. *)
Definition sealedEnd {W E By : Type} `{!Browser W E By} {A} (detached : bool)
    (r : result A) (evs : list event) : Prop :=
  match r with
  | Ret _ => teardowns evs = 0%nat
  | _ => wound detached r evs
  end.

(** A run that does not return and is [wound]. *)
Definition fatalEnd {W E By : Type} `{!Browser W E By} {A} (detached : bool)
    (r : result A) (evs : list event) : Prop :=
  (forall a, r <> Ret a) /\ wound detached r evs.

(** Every run of the computation ends that way. *)
Definition tidy {W E By : Type} `{!Browser W E By} {A} (detached : bool)
    (m : M W A) : Prop :=
  traced m (tidyEnd detached).
Definition sealed {W E By : Type} `{!Browser W E By} {A} (detached : bool)
    (m : M W A) : Prop :=
  traced m (sealedEnd detached).
Definition fatal {W E By : Type} `{!Browser W E By} {A} (detached : bool)
    (m : M W A) : Prop :=
  traced m (fatalEnd detached).

(** No call of [driver.quit()]. *)
Definition noTeardown (ev : event) : bool := negb (isTeardown ev).

(** An environment variable the program takes as not set. *)
Definition unset (v : option string) : Prop := v = None \/ v = Some "".

(** Every character of the string satisfies [P]. *)
Fixpoint everyChar (P : ascii -> bool) (s : string) : bool :=
  match s with
  | EmptyString => true
  | String c s' => P c && everyChar P s'
  end.

(** A character a normalized header can hold: no space, no line feed,
    nothing the lower-case mapping would change. *)
Definition keyChar (c : ascii) : bool :=
  negb (Ascii.eqb c space) && negb (Ascii.eqb c newline) && Ascii.eqb (lowerChar c) c.

(** The reference [navigate] resolves against the base address. *)
Definition navigationPath (url : string) : string :=
  if existsb (fun keyword => includes keyword (toLowerCase url)) filingKeywords
  then "filing/" ++ url else url.

(** The addresses the browser was sent to, in order. *)
Definition pageVisits (evs : list event) : list string :=
  flat_map (fun ev => match ev with Visit url => [url] | _ => [] end) evs.

(** How a run can end: with a value satisfying [Q] or with an error
    satisfying [T], never with the process gone. *)
Definition ends {W A} (m : M W A) (Q : A -> Prop) (T : error -> Prop) : Prop :=
  forall s r s', m s = (r, s') ->
                 match r with
                 | Ret a => Q a
                 | Throw e => T e
                 | Exit _ => False
                 end.

(** No condition on the error thrown. *)
Definition anyError : error -> Prop := fun _ => True.

(** The shape of what the locator returns. *)
Definition shapeOf {E} (multiple : bool) (v : located E) : Prop :=
  v = Null \/ (if multiple then exists es, v = Many es else exists e, v = One e).

(** An error raised by reading the text of some element. *)
Definition textFault {W E By : Type} `{!Browser W E By} (e : error) : Prop :=
  exists (cell : E) (w : W), fst (getText cell w) = inl e.

(** The value the row loop stores for the header at position [j]. *)
Definition cellValue {E} (text : E -> string) (cells : list E) (j : nat) : string :=
  match cells !! j with
  | Some cell => trim (text cell)
  | None => ""
  end.

(** The row loop without the browser: the texts are given by [text]. *)
Fixpoint zipRow {E} (text : E -> string) (cells : list E) (i : nat)
    (headers : list string) (rowData : record) : record :=
  match headers with
  | [] => rowData
  | header :: rest =>
      if excludedHeader header then zipRow text cells (S i) rest rowData
      else zipRow text cells (S i) rest (setProperty header (cellValue text cells i) rowData)
  end.

(** The text of the element at [h] in document [d], empty when there is none. *)
Definition textIn (d : Fixture.node) (h : Fixture.handle) : string :=
  match Fixture.textAt d h with
  | inr t => t
  | inl _ => ""
  end.


(** * Properties *)

(** ** Header normalization *)

Section Normalization.

Lemma mapChars_compose f g s : mapChars f (mapChars g s) = mapChars (fun c => f (g c)) s.
Proof. induction s as [|c s IH]; simpl; [reflexivity | now rewrite IH]. Qed.

Lemma mapChars_ext f g s : (forall c, f c = g c) -> mapChars f s = mapChars g s.
Proof. intros Hfg. induction s as [|c s IH]; simpl; [reflexivity | now rewrite Hfg, IH]. Qed.

Lemma normalizeHeader_mapChars s : normalizeHeader s = mapChars normalizeChar (trim s).
Proof.
  unfold normalizeHeader, toLowerCase, replaceAll.
  rewrite !mapChars_compose. apply mapChars_ext. reflexivity.
Qed.

Lemma normalizeChar_idempotent c : normalizeChar (normalizeChar c) = normalizeChar c.
Proof. destruct c as [[] [] [] [] [] [] [] []]; reflexivity. Qed.

Lemma normalizeChar_keeps_ink c :
  isWhiteSpace c = false -> isWhiteSpace (normalizeChar c) = false.
Proof. destruct c as [[] [] [] [] [] [] [] []]; intros H; solve [reflexivity | discriminate H]. Qed.

Lemma trimStart_clean s : startsClean (trimStart s) = true.
Proof.
  induction s as [|c s IH]; simpl; [reflexivity|].
  destruct (isWhiteSpace c) eqn:Hc; [exact IH | simpl; now rewrite Hc].
Qed.

Lemma trimStart_of_clean s : startsClean s = true -> trimStart s = s.
Proof.
  destruct s as [|c s]; simpl; [reflexivity|].
  destruct (isWhiteSpace c); [discriminate | reflexivity].
Qed.

Lemma trimEnd_clean s : startsClean s = true -> startsClean (trimEnd s) = true.
Proof.
  destruct s as [|c s]; simpl; [reflexivity|]. intros Hc.
  destruct (trimEnd s); simpl; [|exact Hc].
  destruct (isWhiteSpace c) eqn:Hw; simpl; [reflexivity | now rewrite Hw].
Qed.

Lemma trimEnd_idempotent s : trimEnd (trimEnd s) = trimEnd s.
Proof.
  induction s as [|c s IH]; simpl; [reflexivity|].
  destruct (trimEnd s) as [|d u] eqn:Hu.
  - destruct (isWhiteSpace c) eqn:Hc; simpl; [reflexivity | now rewrite Hc].
  - change (trimEnd (String c (String d u))) with
      (match trimEnd (String d u) with
       | EmptyString => if isWhiteSpace c then EmptyString else String c EmptyString
       | t => String c t
       end).
    now rewrite IH.
Qed.

Lemma trimEnd_mapChars f s :
  (forall c, isWhiteSpace c = false -> isWhiteSpace (f c) = false) ->
  trimEnd s = s -> trimEnd (mapChars f s) = mapChars f s.
Proof.
  intros Hf. induction s as [|c s IH]; simpl; [reflexivity|].
  destruct (trimEnd s) as [|d u] eqn:Hu.
  - destruct (isWhiteSpace c) eqn:Hc; [discriminate|].
    intros [= <-]. simpl. now rewrite (Hf c Hc).
  - intros [= Hs]. rewrite (IH Hs). rewrite <- Hs. reflexivity.
Qed.

Lemma startsClean_mapChars f s :
  (forall c, isWhiteSpace c = false -> isWhiteSpace (f c) = false) ->
  startsClean s = true -> startsClean (mapChars f s) = true.
Proof.
  intros Hf. destruct s as [|c s]; simpl; [reflexivity|].
  destruct (isWhiteSpace c) eqn:Hc; [discriminate|]. now rewrite (Hf c Hc).
Qed.

(** A normalized header has nothing left to trim. *)
Lemma trim_normalizeHeader s : trim (normalizeHeader s) = normalizeHeader s.
Proof.
  rewrite normalizeHeader_mapChars. unfold trim at 1.
  rewrite trimStart_of_clean.
  - apply trimEnd_mapChars; [exact normalizeChar_keeps_ink|].
    unfold trim. apply trimEnd_idempotent.
  - apply startsClean_mapChars; [exact normalizeChar_keeps_ink|].
    unfold trim. apply trimEnd_clean, trimStart_clean.
Qed.

End Normalization.

(** C6. Header normalization (trim, newlines to spaces, spaces to
    underscores, lower case) is a total function that is idempotent:
    normalizing a normalized header changes nothing; and the header
    text " Time In \n" (with a trailing line feed) normalizes to
    "time_in". *)
Theorem normalizeHeader_idempotent :
  (forall s : string, normalizeHeader (normalizeHeader s) = normalizeHeader s) /\
  normalizeHeader (" Time In " ++ String newline EmptyString) = "time_in".
Proof.
  split; [|reflexivity].
  intros s. rewrite (normalizeHeader_mapChars (normalizeHeader s)).
  rewrite trim_normalizeHeader, normalizeHeader_mapChars, mapChars_compose.
  apply mapChars_ext, normalizeChar_idempotent.
Qed.

(** ** Month and year of an attendance query *)

Section MonthYear.

Lemma month_cases (m : Z) :
  (1 <= m <= 12)%Z ->
  m = 1%Z \/ m = 2%Z \/ m = 3%Z \/ m = 4%Z \/ m = 5%Z \/ m = 6%Z \/
  m = 7%Z \/ m = 8%Z \/ m = 9%Z \/ m = 10%Z \/ m = 11%Z \/ m = 12%Z.
Proof. lia. Qed.

(** December, one month ahead: January of the next year. *)
Lemma december_next (y : Z) :
  adjustedMonth 12 1 = 1%Z /\ adjustedYear 12 y 1 = (y + 1)%Z /\
  selectedMonth 12 1 = Some "January".
Proof. repeat split. Qed.

(** Away from the two year boundaries the year stays and the month is
    shifted by the increment. *)
Lemma inside_year (m y increment : Z) :
  (1 <= m <= 12)%Z -> (-1 <= increment <= 1)%Z ->
  (1 <= m + increment <= 12)%Z ->
  adjustedMonth m increment = (m + increment)%Z /\
  adjustedYear m y increment = y /\
  selectedMonth m increment = months !! Z.to_nat (m + increment - 1).
Proof.
  intros Hm Hi Hin.
  assert (increment = (-1)%Z \/ increment = 0%Z \/ increment = 1%Z) as Hc by lia.
  destruct (month_cases m Hm) as [->|[->|[->|[->|[->|[->|[->|[->|[->|[->|[->| ->]]]]]]]]]]];
    destruct Hc as [->|[->| ->]]; try lia; repeat split.
Qed.

End MonthYear.

(** C1 (the program departs from it). In January the increment -1 does
    not select December of the previous year: JavaScript's remainder of
    -1 by 12 is -1, so the adjusted month is 0, no month name is selected
    (the array is read at index -1) and the year is left unchanged. *)
Theorem january_previous_month (y : Z) :
  adjustedMonth 1 (-1) = 0%Z /\
  adjustedYear 1 y (-1) = y /\
  selectedMonth 1 (-1) = None.
Proof. repeat split. Qed.

(** ** Reasoning about runs *)

Section Runs.
Context {W : Type}.

Lemma bind_Ret {A B} (m : M W A) (f : A -> M W B) s b s' :
  (m ≫= f) s = (Ret b, s') ->
  exists a s1, m s = (Ret a, s1) /\ f a s1 = (Ret b, s').
Proof.
  unfold mbind, M_bind. destruct (m s) as [[a|e|c] s1]; intros H;
    [eauto | discriminate | discriminate].
Qed.

Lemma bind_step {A B} (m : M W A) (f : A -> M W B) s a s1 :
  m s = (Ret a, s1) -> (m ≫= f) s = f a s1.
Proof. unfold mbind, M_bind. now intros ->. Qed.

Lemma mret_Ret {A} (a b : A) (s s' : state W) :
  (mret a : M W A) s = (Ret b, s') -> a = b /\ s = s'.
Proof. unfold mret, M_ret. now intros [= -> ->]. Qed.



Lemma emitted_app (s s' : state W) evs :
  trace s' = (trace s ++ evs)%list -> emitted s s' = evs.
Proof. intros H. unfold emitted. rewrite H. apply drop_app_length. Qed.

End Runs.

(** ** Element locator *)

(** Closes a branch of [processElement] once the outside calls have been
    split into their outcomes. *)
Ltac locator_done :=
  unfold printWarning, printError, emit;
  repeat (destruct (String.eqb _ _); cbn);
  try (intros [= <- <-]); eauto.

Section Locator.
Context {W E By : Type} `{!Browser W E By}.

(** With the multiplicity flag set the parent plays no part. *)
Lemma processElement_multiple_any_parent (parent parent' : located E) by_ locator
    timeout (s : state W) :
  processElement parent by_ locator true timeout s =
  processElement parent' by_ locator true timeout s.
Proof. reflexivity. Qed.

(** With the flag set the value is [null] or an array, without it
    [null] or one element. *)
Lemma processElement_shape parent by_ locator multiple timeout (s : state W) v s' :
  processElement parent by_ locator multiple timeout s = (Ret v, s') ->
  v = Null \/
  (if multiple then exists es, v = Many es else exists e, v = One e).
Proof.
  unfold processElement.
  destruct locator as [[|c loc]|]; cbn; try (intros [= <- <-]; now left).
  unfold try_catch, mbind, M_bind, call, mret, M_ret, throw.
  destruct multiple.
  - destruct (wait_elementsLocated _ _ _ _) as [[e|es] w]; cbn; locator_done.
  - destruct (wait_elementLocated _ _ _ _) as [[e|el] w]; cbn; [locator_done|].
    destruct parent as [|p|ps]; cbn; [| |locator_done].
    + destruct (findElement None _ _ _) as [[e|x] w']; cbn; locator_done.
    + destruct (findElement (Some p) _ _ _) as [[e|x] w']; cbn; locator_done.
Qed.

End Locator.

(** C2. The element locator never raises and never ends the process:
    whatever the parent, strategy, locator, multiplicity flag and timeout,
    it returns a value. The value is [null] when no locator is given and
    when the wait or the scoped search fails, whatever the error
    (timeout, element not found, or any other fault); otherwise it is the
    array of elements the wait produced (flag set) or the element the
    scoped search found (flag not set). *)
Theorem processElement_never_raises {W E By : Type} `{!Browser W E By}
    (parent : located E) (by_ : By) (locator : option string) (multiple : bool)
    (timeout : Z) (s : state W) :
  let r := fst (processElement parent by_ locator multiple timeout s) in
  (exists v, r = Ret v) /\
  match locator with
  | None | Some EmptyString => r = Ret Null
  | Some loc =>
      if multiple then
        match wait_elementsLocated by_ loc timeout (world s) with
        | (inl _, _) => r = Ret Null
        | (inr es, _) => r = Ret (Many es)
        end
      else
        match wait_elementLocated by_ loc timeout (world s) with
        | (inl _, _) => r = Ret Null
        | (inr _, w) =>
            match parent with
            | Many _ => r = Ret Null
            | _ =>
                match findElement (scopeOf parent) by_ loc w with
                | (inl _, _) => r = Ret Null
                | (inr e, _) => r = Ret (One e)
                end
            end
        end
  end.
Proof.
  unfold processElement.
  destruct locator as [[|c loc]|]; cbn; eauto.
  unfold try_catch, mbind, M_bind, call, mret, M_ret, throw.
  destruct multiple; cbn.
  - destruct (wait_elementsLocated _ _ _ _) as [[e|es] w]; cbn; locator_done.
  - destruct (wait_elementLocated _ _ _ _) as [[e|el] w]; cbn; [locator_done|].
    destruct parent as [|p|ps]; cbn; [| |locator_done].
    + destruct (findElement None _ _ _) as [[e|x] w']; cbn; locator_done.
    + destruct (findElement (Some p) _ _ _) as [[e|x] w']; cbn; locator_done.
Qed.

(** ** Connectivity check *)

Section Connectivity.
Context {W E By : Type} `{!Browser W E By}.

(** One attempt: one probe and one line of console output; it returns
    from the function exactly when the probe is answered with 200. *)
Lemma attemptOnce_run url timeout retries attempt (s : state W) :
  exists sev msg,
    attemptOnce url timeout retries attempt s =
    (Ret (if answered200 (fst (axios_get url timeout (world s))) then Some true else None),
     mkState (snd (axios_get url timeout (world s)))
             (trace s ++ [HttpGet url timeout (fst (axios_get url timeout (world s)));
                          Log sev msg])).
Proof.
  unfold attemptOnce, try_catch, mbind, M_bind, httpGet.
  destruct (axios_get url timeout (world s)) as [[e|status] w]; cbn.
  - destruct (String.eqb _ _); cbn; rewrite <- app_assoc; eauto.
  - destruct (status =? 200)%Z; cbn; rewrite <- app_assoc; eauto.
Qed.

Lemma attemptLoop_S url timeout retries fuel attempt :
  attemptLoop url timeout retries (S fuel) attempt =
  if (attempt <=? retries)%nat then
    r ← attemptOnce url timeout retries attempt;
    match r with
    | Some b => mret (Some b)
    | None =>
        (if (attempt <? retries)%nat then
           printWarning "Retrying in 1 second...";; sleep 1000
         else mret tt);;
        attemptLoop url timeout retries fuel (S attempt)
    end
  else (mret None : M W (option bool)).
Proof. reflexivity. Qed.

Lemma attemptLoop_outcome url timeout retries fuel :
  forall attempt (s : state W),
    fst (attemptLoop url timeout retries fuel attempt s) = Ret (Some true) \/
    fst (attemptLoop url timeout retries fuel attempt s) = Ret None.
Proof.
  induction fuel as [|fuel IH]; intros attempt s; [now right|].
  rewrite attemptLoop_S.
  destruct (attempt <=? retries)%nat; [|now right].
  unfold mbind, M_bind.
  destruct (attemptOnce_run url timeout retries attempt s) as (sev & msg & ->).
  destruct (answered200 _); [now left|].
  destruct (attempt <? retries)%nat; apply IH.
Qed.

(** The fatal ending shared by the checks of the program: the failure
    line, then [await driver.quit()], whose outcome decides between the
    end of the process and a throw. *)
Lemma fatal_run {A} msg (s : state W) :
  (printError msg;; quit;; exit 1 : M W A) s =
  (match fst (driver_quit (world s)) with
   | inl e => Throw e
   | inr _ => Exit 1
   end,
   mkState (snd (driver_quit (world s)))
           (trace s ++ [Log Failure msg; Teardown (Some (fst (driver_quit (world s))))])).
Proof.
  unfold printError, quit, exit, emit, mbind, M_bind. cbn.
  destruct (driver_quit (world s)) as [[e|u] w]; cbn; now rewrite <- app_assoc.
Qed.

Lemma checkInternet_outcome url timeout retries (s : state W) :
  fst (checkInternet url timeout retries s) = Ret true \/
  fst (checkInternet url timeout retries s) = Exit 1 \/
  exists e (w : W),
    fst (checkInternet url timeout retries s) = Throw e /\ fst (driver_quit w) = inl e.
Proof.
  unfold checkInternet.
  destruct (attemptLoop url timeout retries retries 1 s) as [r s1] eqn:Hloop.
  pose proof (attemptLoop_outcome url timeout retries retries 1 s) as H.
  rewrite Hloop in H. cbn in H.
  destruct H as [-> | ->]; rewrite (bind_step _ _ _ _ _ Hloop); [now left|].
  rewrite fatal_run. cbn.
  destruct (fst (driver_quit (world s1))) as [e|u] eqn:Hq; [|now right; left].
  right. right. exists e, (world s1). now split.
Qed.

Lemma calls_app evs evs' : calls (evs ++ evs') = (calls evs ++ calls evs')%list.
Proof. unfold calls. apply List.filter_app. Qed.

Lemma schedule_cons url timeout r responses :
  responses <> [] ->
  schedule url timeout (r :: responses) =
  (HttpGet url timeout r :: Timer 1000 :: schedule url timeout responses).
Proof. destruct responses as [|r' rest]; [congruence | reflexivity]. Qed.

Lemma attemptLoop_schedule url timeout retries fuel :
  forall attempt (s : state W),
    (retries < attempt + fuel)%nat ->
    exists responses evs r s',
      attemptLoop url timeout retries fuel attempt s = (r, s') /\
      trace s' = (trace s ++ evs)%list /\
      calls evs = schedule url timeout responses /\
      (forall i resp, responses !! i = Some resp -> (S i < length responses)%nat ->
                      answered200 resp = false) /\
      ((r = Ret (Some true) /\
        (exists resp, last responses = Some resp /\ answered200 resp = true) /\
        (attempt + length responses <= retries + 1)%nat)
       \/
       (r = Ret None /\
        length responses = (retries + 1 - attempt)%nat /\
        (forall resp, resp ∈ responses -> answered200 resp = false))).
Proof.
  induction fuel as [|fuel IH]; intros attempt s Hfuel.
  - exists [], [], (Ret None), s. cbn. rewrite app_nil_r.
    repeat split; try (intros; discriminate).
    right. repeat split; [lia|]. intros resp Hin. inversion Hin.
  - rewrite attemptLoop_S.
    destruct (attempt <=? retries)%nat eqn:Hle.
    2:{ apply Nat.leb_gt in Hle.
        exists [], [], (Ret None), s. cbn. rewrite app_nil_r.
        repeat split; try (intros; discriminate).
        right. repeat split; [lia|]. intros resp Hin. inversion Hin. }
    apply Nat.leb_le in Hle.
    destruct (attemptOnce_run url timeout retries attempt s) as (sev & msg & Honce).
    rewrite (bind_step _ _ _ _ _ Honce). clear Honce.
    set (resp := fst (axios_get url timeout (world s))).
    set (w := snd (axios_get url timeout (world s))).
    destruct (answered200 resp) eqn:H200.
    + exists [resp], [HttpGet url timeout resp; Log sev msg]. do 2 eexists.
      split; [reflexivity|]. split; [reflexivity|]. split; [reflexivity|].
      split; [intros i r Hi Hlen; cbn in Hlen; lia|].
      left. split; [reflexivity|]. split; [exists resp; now split | cbn; lia].
    + destruct (attempt <? retries)%nat eqn:Hlt.
      * apply Nat.ltb_lt in Hlt.
        erewrite bind_step by reflexivity.
        match goal with
        | |- context [attemptLoop url timeout retries fuel (S attempt) ?s1] =>
            destruct (IH (S attempt) s1 ltac:(lia))
              as (responses & evs & r & s' & Hrun & Htr & Hcalls & Hinit & Hend)
        end.
        assert (responses <> []) as Hne.
        { destruct Hend as [(_ & (x & Hx & _) & _)|(_ & Hlen & _)];
            destruct responses; cbn in *; try congruence; lia. }
        exists (resp :: responses),
          ([HttpGet url timeout resp; Log sev msg;
            Log Warning "Retrying in 1 second..."; Timer 1000] ++ evs)%list, r, s'.
        split; [exact Hrun|]. split.
        { rewrite Htr. cbn. rewrite <- !app_assoc. reflexivity. }
        split.
        { rewrite calls_app, Hcalls, schedule_cons by exact Hne. reflexivity. }
        split.
        { intros [|i] x Hx Hlen; cbn in Hx, Hlen.
          - now inversion Hx; subst.
          - apply (Hinit i x Hx). lia. }
        destruct Hend as [(-> & (x & Hx & Hx200) & Hlen)|(-> & Hlen & Hall)].
        -- left. split; [reflexivity|]. split.
           ++ exists x. split; [|exact Hx200].
              destruct responses; [congruence | exact Hx].
           ++ cbn. lia.
        -- right. split; [reflexivity|]. split; [cbn; lia|].
           intros x Hin. apply elem_of_cons in Hin as [->|Hin]; auto.
      * apply Nat.ltb_ge in Hlt.
        erewrite bind_step by reflexivity.
        match goal with
        | |- context [attemptLoop url timeout retries fuel (S attempt) ?s1] =>
            destruct (IH (S attempt) s1 ltac:(lia))
              as (responses & evs & r & s' & Hrun & Htr & Hcalls & Hinit & Hend)
        end.
        assert (responses = [] /\ r = Ret None) as [-> ->].
        { destruct Hend as [(_ & (x & Hx & _) & Hlen)|(-> & Hlen & _)].
          - destruct responses; cbn in *; [discriminate | lia].
          - destruct responses; cbn in *; [auto | lia]. }
        exists [resp], ([HttpGet url timeout resp; Log sev msg] ++ evs)%list, (Ret None), s'.
        split; [exact Hrun|]. split.
        { rewrite Htr. cbn. rewrite <- !app_assoc. reflexivity. }
        split.
        { rewrite calls_app, Hcalls. reflexivity. }
        split; [intros i r Hi Hl; cbn in Hl; lia|].
        right. split; [reflexivity|]. split; [cbn; lia|].
        intros x Hin. apply list_elem_of_singleton in Hin as ->. exact H200.
Qed.

Lemma answered200_true resp : answered200 resp = true <-> resp = inr 200%Z.
Proof.
  destruct resp as [e|status]; cbn; [split; discriminate|].
  rewrite Z.eqb_eq. split; congruence.
Qed.

Lemma answered200_false resp : answered200 resp = false <-> resp <> inr 200%Z.
Proof.
  rewrite <- answered200_true. destruct (answered200 resp); split; congruence.
Qed.

End Connectivity.

(** C10 (as the program has it). The connectivity check never hands a
    falsy value to its caller: for every address, timeout, number of
    retries and state of the world it returns [true], ends the process
    with code 1, or throws the error [driver.quit()] rejected with. The
    guard on its result in [main] is therefore dead code: the guarded
    statement behaves like the bare call. *)
Theorem checkInternet_never_false {W E By : Type} `{!Browser W E By} (nav_url : string) :
  (forall url timeout retries (s : state W),
      fst (checkInternet url timeout retries s) = Ret true \/
      fst (checkInternet url timeout retries s) = Exit 1 \/
      exists e (w : W),
        fst (checkInternet url timeout retries s) = Throw e /\
        fst (driver_quit w) = inl e) /\
  (forall s : state W,
      connectivityGate nav_url s =
      (checkInternet nav_url global_timeout 3 ≫= (fun _ => mret tt)) s).
Proof.
  split; [intros; apply checkInternet_outcome|].
  intros s. unfold connectivityGate, mbind, M_bind.
  destruct (checkInternet_outcome nav_url global_timeout 3 s) as [H|[H|(e & w & H & _)]];
    destruct (checkInternet nav_url global_timeout 3 s) as [r s1];
    cbn in H; subst r; reflexivity.
Qed.

(** C8 (as the program has it). The connectivity check of [main] probes
    the address at most three times, with a timer of one second between
    two consecutive probes and no other outside call. It returns [true]
    at the first probe answered with status 200 and makes no further
    probe; every other answer, a status other than 200 as much as a
    rejected request, counts as a failed attempt. When all three attempts
    fail it calls [driver.quit()], in the world [w] the probes left, and
    waits for it: when the call resolves the process is ended with code
    1, when it rejects the check throws that error. Either way no value
    is returned. *)
Theorem checkInternet_three_attempts {W E By : Type} `{!Browser W E By}
    (url : string) (timeout : Z) (s : state W) :
  exists responses : list (error + Z),
    (length responses <= 3)%nat /\
    (forall i resp, responses !! i = Some resp -> (S i < length responses)%nat ->
                    resp <> inr 200%Z) /\
    ((fst (checkInternet url timeout 3 s) = Ret true /\
      last responses = Some (inr 200%Z) /\
      calls (emitted s (snd (checkInternet url timeout 3 s)))
      = schedule url timeout responses)
     \/
     (length responses = 3%nat /\
      (forall resp, resp ∈ responses -> resp <> inr 200%Z) /\
      let w := world (snd (attemptLoop url timeout 3 3 1 s)) in
      calls (emitted s (snd (checkInternet url timeout 3 s)))
      = (schedule url timeout responses ++ [Teardown (Some (fst (driver_quit w)))])%list /\
      fst (checkInternet url timeout 3 s)
      = match fst (driver_quit w) with
        | inl e => Throw e
        | inr _ => Exit 1
        end /\
      world (snd (checkInternet url timeout 3 s)) = snd (driver_quit w))).
Proof.
  destruct (attemptLoop_schedule url timeout 3 3 1 s ltac:(lia))
    as (responses & evs & r & s' & Hrun & Htr & Hcalls & Hinit & Hend).
  exists responses.
  assert (forall i resp, responses !! i = Some resp -> (S i < length responses)%nat ->
                         resp <> inr 200%Z) as Hinit'.
  { intros i resp Hi Hlen. apply answered200_false. eauto. }
  unfold checkInternet.
  destruct Hend as [(-> & (x & Hx & Hx200) & Hlen)|(-> & Hlen & Hall)].
  - split; [lia|]. split; [exact Hinit'|]. left.
    rewrite (bind_step _ _ _ _ _ Hrun). cbn.
    apply answered200_true in Hx200 as ->.
    split; [reflexivity|]. split; [exact Hx|].
    now rewrite (emitted_app s s' evs Htr).
  - split; [lia|]. split; [exact Hinit'|]. right.
    rewrite (bind_step _ _ _ _ _ Hrun), fatal_run. cbn [fst snd].
    split; [exact Hlen|]. split.
    + intros resp Hin. apply answered200_false. auto.
    + cbn zeta. rewrite Hrun. cbn [fst snd world].
      split; [|split; reflexivity].
      erewrite emitted_app.
      2:{ cbn. rewrite Htr, <- !app_assoc. reflexivity. }
      rewrite calls_app, Hcalls. reflexivity.
Qed.

(** ** Navigation *)

(** C9. The navigator resolves a report name against the configured base
    address, with [filing/] put in front of the name exactly when the
    lower-cased name contains one of overtime, officialbusiness and leave;
    the browser is sent to the resolved address. In particular
    [attendance] is resolved as it stands. When the browser cannot be
    sent there, the navigator calls [driver.quit()] and ends the process
    with code 1, or throws the error that call rejected with. *)
Theorem navigate_resolves {W E By : Type} `{!Browser W E By} (nav_url : string) :
  (forall (url : string) (s : state W),
      exists relative,
        ((relative = "filing/" ++ url /\
          exists keyword, keyword ∈ ["overtime"; "officialbusiness"; "leave"] /\
                          includes keyword (toLowerCase url) = true)
         \/
         (relative = url /\
          forall keyword, keyword ∈ ["overtime"; "officialbusiness"; "leave"] ->
                          includes keyword (toLowerCase url) = false)) /\
        match new_URL relative nav_url with
        | inl e => navigate nav_url url s = (Throw e, s)
        | inr href =>
            match driver_get href (world s) with
            | (inr _, w) =>
                navigate nav_url url s = (Ret tt, mkState w (trace s ++ [Visit href]))
            | (inl _, w) =>
                fst (navigate nav_url url s)
                = match fst (driver_quit w) with
                  | inl e => Throw e
                  | inr _ => Exit 1
                  end
            end
        end) /\
  (forall s : state W,
      match new_URL "attendance" nav_url with
      | inl e => navigate nav_url "attendance" s = (Throw e, s)
      | inr href =>
          match driver_get href (world s) with
          | (inr _, w) =>
              navigate nav_url "attendance" s
              = (Ret tt, mkState w (trace s ++ [Visit href]))
          | (inl _, w) =>
              fst (navigate nav_url "attendance" s)
              = match fst (driver_quit w) with
                | inl e => Throw e
                | inr _ => Exit 1
                end
          end
      end).
Proof.
  assert (forall relative (s : state W),
             match new_URL relative nav_url with
             | inl e =>
                 (full_url ← resolveUrl relative nav_url;
                  try_catch
                    (emit (Visit full_url);; call (driver_get full_url))
                    (fun error =>
                       printError ("Error navigating to " ++ full_url ++ ": "
                                   ++ err_message error);;
                       quit;; exit 1)) s = (Throw e, s)
             | inr href =>
                 match driver_get href (world s) with
                 | (inr _, w) =>
                     (full_url ← resolveUrl relative nav_url;
                      try_catch
                        (emit (Visit full_url);; call (driver_get full_url))
                        (fun error =>
                           printError ("Error navigating to " ++ full_url ++ ": "
                                       ++ err_message error);;
                           quit;; exit 1)) s
                     = (Ret tt, mkState w (trace s ++ [Visit href]))
                 | (inl _, w) =>
                     fst ((full_url ← resolveUrl relative nav_url;
                           try_catch
                             (emit (Visit full_url);; call (driver_get full_url))
                             (fun error =>
                                printError ("Error navigating to " ++ full_url ++ ": "
                                            ++ err_message error);;
                                quit;; exit 1)) s)
                     = match fst (driver_quit w) with
                       | inl e => Throw e
                       | inr _ => Exit 1
                       end
                 end
             end) as Hgo.
  { intros relative s. unfold resolveUrl.
    destruct (new_URL relative nav_url) as [e|href]; [reflexivity|].
    erewrite bind_step by reflexivity.
    unfold try_catch.
    assert ((emit (Visit href);; call (driver_get href) : M W unit) s
            = (match fst (driver_get href (world s)) with
               | inl e => Throw e
               | inr a => Ret a
               end,
               mkState (snd (driver_get href (world s))) (trace s ++ [Visit href])))
      as Hvisit.
    { unfold mbind, M_bind, emit, call. cbn.
      destruct (driver_get href (world s)) as [[e|a] w]; reflexivity. }
    rewrite Hvisit.
    destruct (driver_get href (world s)) as [[e|[]] w]; cbn [fst snd]; [|reflexivity].
    rewrite fatal_run. reflexivity. }
  split.
  - intros url s. unfold navigate.
    destruct (existsb _ filingKeywords) eqn:Hany.
    + exists ("filing/" ++ url). split; [|apply Hgo].
      left. split; [reflexivity|].
      apply existsb_exists in Hany as (keyword & Hin & Hinc).
      exists keyword. split; [now apply list_elem_of_In | exact Hinc].
    + exists url. split; [|apply Hgo].
      right. split; [reflexivity|]. intros keyword Hin.
      apply list_elem_of_In in Hin.
      destruct (includes keyword (toLowerCase url)) eqn:Hinc; [|reflexivity].
      assert (existsb (fun keyword => includes keyword (toLowerCase url)) filingKeywords
              = true) as Hyes by (apply existsb_exists; eauto).
      congruence.
  - intros s. apply (Hgo "attendance" s).
Qed.

(** ** A logic of returned values *)

Section Returns.
Context {W : Type}.

Lemma returns_ret {A} (a : A) (P : A -> Prop) : P a -> returns (mret a : M W A) P.
Proof. intros HP s b s' [= <- _]. exact HP. Qed.

Lemma returns_bind {A B} (m : M W A) (f : A -> M W B) (Q : A -> Prop) (P : B -> Prop) :
  returns m Q -> (forall a, Q a -> returns (f a) P) -> returns (m ≫= f) P.
Proof.
  intros Hm Hf s b s' H. apply bind_Ret in H as (a & s1 & Ha & Hb).
  exact (Hf a (Hm _ _ _ Ha) _ _ _ Hb).
Qed.

Lemma returns_bind_any {A B} (m : M W A) (f : A -> M W B) (P : B -> Prop) :
  (forall a, returns (f a) P) -> returns (m ≫= f) P.
Proof. intros Hf. apply (returns_bind m f (fun _ => True)); [easy | auto]. Qed.

Lemma returns_try_catch {A} (m : M W A) (h : error -> M W A) (P : A -> Prop) :
  returns m P -> (forall e, returns (h e) P) -> returns (try_catch m h) P.
Proof.
  intros Hm Hh s a s'. unfold try_catch.
  destruct (m s) as [[b|e|c] s1] eqn:Hms; intros H.
  - injection H as <- <-. exact (Hm _ _ _ Hms).
  - exact (Hh e _ _ _ H).
  - discriminate.
Qed.

Lemma returns_throw {A} (e : error) (P : A -> Prop) : returns (throw e : M W A) P.
Proof. intros s a s' H. discriminate. Qed.

Lemma returns_exit {A} (c : Z) (P : A -> Prop) : returns (exit c : M W A) P.
Proof. intros s a s' H. discriminate. Qed.

Lemma returns_forEach {A X} (body : A -> X -> M W A) (I : A -> Prop) (xs : list X) :
  (forall acc x, I acc -> returns (body acc x) I) ->
  forall acc, I acc -> returns (forEach body xs acc) I.
Proof.
  intros Hbody. induction xs as [|x xs IH]; intros acc Hacc; cbn.
  - now apply returns_ret.
  - apply (returns_bind _ _ I); [now apply Hbody | exact IH].
Qed.

(** From a run back to the property. *)
Lemma returns_run {A} (m : M W A) (P : A -> Prop) s a s' :
  returns m P -> m s = (Ret a, s') -> P a.
Proof. intros H. apply H. Qed.

End Returns.

(** One structural step of a [returns] goal. *)
Ltac returns_step :=
  match goal with
  | |- returns (mret _) _ => apply returns_ret
  | |- returns (throw _) _ => apply returns_throw
  | |- returns (exit _) _ => apply returns_exit
  | |- returns (try_catch _ _) _ => apply returns_try_catch; [|intros ?]
  | |- returns (if ?c then _ else _) _ => destruct c eqn:?
  | |- returns (match ?x with _ => _ end) _ => destruct x eqn:?
  | |- returns (_ ≫= _) _ => apply returns_bind_any; intros ?
  end.

(** ** Table parser *)

Section Parser.
Context {W E By : Type} `{!Browser W E By}.

Lemma storedHeader_true h :
  storedHeader h = true <-> excludedHeader h = false /\ h <> "__proto__".
Proof.
  unfold storedHeader. rewrite andb_true_iff, !negb_true_iff, String.eqb_neq. tauto.
Qed.

Lemma recordKeys_cons h headers :
  recordKeys (h :: headers) =
  if storedHeader h then {[h]} ∪ recordKeys headers else recordKeys headers.
Proof.
  unfold recordKeys. destruct (storedHeader h) eqn:Hx.
  - rewrite filter_cons_True by exact Hx. reflexivity.
  - rewrite filter_cons_False by (rewrite Hx; discriminate). reflexivity.
Qed.

Lemma recordKeys_spec h headers :
  h ∈ recordKeys headers <-> h ∈ headers /\ storedHeader h = true.
Proof. unfold recordKeys. rewrite elem_of_list_to_set, list_elem_of_filter. tauto. Qed.

Lemma dom_setProperty name value (obj : record) :
  dom (setProperty name value obj) =
  if String.eqb name "__proto__" then dom obj else {[name]} ∪ dom obj.
Proof.
  unfold setProperty. destruct (String.eqb name "__proto__"); [reflexivity|].
  apply dom_insert_L.
Qed.

Lemma lookup_setProperty_ne name value (obj : record) key :
  name <> key -> setProperty name value obj !! key = obj !! key.
Proof.
  intros Hne. unfold setProperty. destruct (String.eqb name "__proto__"); [reflexivity|].
  now apply lookup_insert_ne.
Qed.

Lemma lookup_setProperty_eq name value (obj : record) :
  name <> "__proto__" -> setProperty name value obj !! name = Some value.
Proof.
  intros Hne. unfold setProperty. apply String.eqb_neq in Hne. rewrite Hne.
  apply lookup_insert_eq.
Qed.

Lemma lookup_setProperty_Some name value (obj : record) key v :
  setProperty name value obj !! key = Some v ->
  (key = name /\ v = value) \/ obj !! key = Some v.
Proof.
  unfold setProperty. destruct (String.eqb name "__proto__"); [now right|].
  intros Hkv. apply lookup_insert_Some in Hkv as [[<- <-]|[_ Hkv]]; auto.
Qed.

(** The inner loop adds exactly the headers it stores. *)
Lemma rowFields_keys (cells : located E) headers :
  forall i rowData,
    returns (rowFields cells i headers rowData : M W record)
            (fun r => dom r = dom rowData ∪ recordKeys headers).
Proof.
  induction headers as [|h headers IH]; intros i rowData.
  - apply returns_ret. change (recordKeys []) with (∅ : gset string).
    now rewrite union_empty_r_L.
  - rewrite recordKeys_cons. cbn [rowFields]. unfold storedHeader.
    destruct (excludedHeader h); [apply IH|].
    apply returns_bind_any. intros cellText.
    intros s r s' Hrun. rewrite (IH _ _ _ _ _ Hrun), dom_setProperty. cbn [negb andb].
    destruct (String.eqb h "__proto__"); cbn [negb]; [reflexivity | set_solver].
Qed.



(** A row without any located cell is parsed without a fault. *)
Lemma rowFields_no_cells headers :
  forall i rowData (s : state W),
    exists r, rowFields (Many []) i headers rowData s = (Ret r, s).
Proof.
  induction headers as [|h headers IH]; intros i rowData s; cbn [rowFields].
  - eexists. reflexivity.
  - destruct (excludedHeader h); [apply IH|].
    cbn [elementAt]. rewrite lookup_nil.
    erewrite bind_step by reflexivity. apply IH.
Qed.

Lemma allRows_nil {A} (P : A -> Prop) : allRows P [].
Proof. intros r Hr. inversion Hr. Qed.

Lemma allRows_snoc {A} (P : A -> Prop) rows r :
  allRows P rows -> P r -> allRows P (rows ++ [r]).
Proof.
  intros Hrows Hr x Hx. apply elem_of_app in Hx as [Hx|Hx]; [auto|].
  now apply list_elem_of_singleton in Hx as ->.
Qed.

(** One turn of the loop over the rows keeps the table or adds the
    parse of the row. *)
Lemma parseRow_parsed headers tableData row :
  allRows (parsedRow headers) tableData ->
  returns (parseRow headers tableData row : M W (list record))
          (allRows (parsedRow headers)).
Proof.
  intros Hrows s a s' Hrun. unfold parseRow in Hrun.
  apply bind_Ret in Hrun as (cells & s1 & Hcells & Hrun).
  destruct (negb (truthy cells)).
  - apply mret_Ret in Hrun as [<- _]. exact Hrows.
  - apply bind_Ret in Hrun as (rowData & s2 & Hfields & Hrun).
    apply mret_Ret in Hrun as [<- _].
    apply allRows_snoc; [exact Hrows|].
    exists row, s, cells, s1, s2. split; assumption.
Qed.

Lemma parseRows_parsed headers rows :
  returns (forEach (parseRow headers) rows [] : M W (list record))
          (allRows (parsedRow headers)).
Proof.
  apply returns_forEach; [|apply allRows_nil].
  intros acc row Hacc. now apply parseRow_parsed.
Qed.

(** Every record of one parse was parsed under the headers that parse
    read. *)
Lemma scrapeTableData_parsed url :
  returns (scrapeTableData url : M W (list record))
          (fun tableData => exists headers, allRows (parsedRow headers) tableData).
Proof.
  unfold scrapeTableData.
  repeat first
    [ apply returns_ret; exists []; apply allRows_nil
    | match goal with
      | |- returns (forEach (parseRow ?hs) _ _) _ =>
          intros ? ? ? Hrun; exists hs; exact (parseRows_parsed hs _ _ _ _ Hrun)
      end
    | returns_step ].
Qed.

Lemma parsedRow_keys headers rowData :
  parsedRow headers rowData -> dom rowData = recordKeys headers.
Proof.
  intros (row & s0 & cells & s1 & s2 & _ & Hfields).
  rewrite (rowFields_keys cells headers 0 ∅ _ _ _ Hfields), dom_empty_L.
  apply union_empty_l_L.
Qed.

(** *** Report driver *)

Lemma pagesAll_nil {A} (P : list A -> Prop) : pagesAll P [].
Proof. intros page Hpage. inversion Hpage. Qed.

Lemma pagesAll_push {A} (P : list A -> Prop) tableData (page : list A) :
  pagesAll P tableData -> P page -> (0 <? length page)%nat = true ->
  pagesAll P (tableData ++ [page]).
Proof.
  intros Hall Hpage Hlen x Hx. apply elem_of_app in Hx as [Hx|Hx]; [auto|].
  apply list_elem_of_singleton in Hx as ->. split; [|exact Hpage].
  intros ->. discriminate Hlen.
Qed.

Lemma elem_of_concat {A} (x : A) (ls : list (list A)) :
  x ∈ concat ls -> exists l, l ∈ ls /\ x ∈ l.
Proof.
  induction ls as [|l ls IH]; cbn; [intros H; inversion H|].
  intros H. apply elem_of_app in H as [H|H].
  - exists l. split; [left | exact H].
  - destruct (IH H) as (l' & Hl' & Hx). exists l'. split; [now right | exact Hx].
Qed.

End Parser.

(** ** A logic of page invariants *)

Section Holds.
Context {W : Type} (Inv : W -> Prop).

Lemma holds_ret {A} (a : A) (P : A -> Prop) : P a -> holds Inv (mret a : M W A) P.
Proof. intros HP s r s' Hs [= <- <-]. split; [exact Hs|]. now intros b [= <-]. Qed.

Lemma holds_throw {A} (e : error) (P : A -> Prop) : holds Inv (throw e : M W A) P.
Proof. intros s r s' Hs [= <- <-]. split; [exact Hs | discriminate]. Qed.

Lemma holds_exit {A} (c : Z) (P : A -> Prop) : holds Inv (exit c : M W A) P.
Proof. intros s r s' Hs [= <- <-]. split; [exact Hs | discriminate]. Qed.

Lemma holds_emit (ev : event) : holds Inv (emit ev : M W unit) anything.
Proof. intros s r s' Hs [= <- <-]. split; [exact Hs | easy]. Qed.

Lemma holds_observe {A} (f : W -> A) : holds Inv (observe f) anything.
Proof. intros s r s' Hs [= <- <-]. split; [exact Hs | easy]. Qed.

Lemma holds_call {A} (op : W -> (error + A) * W) :
  (forall w, Inv w -> Inv (snd (op w))) -> holds Inv (call op) anything.
Proof.
  intros Hop s r s' Hs. unfold call. specialize (Hop _ Hs).
  destruct (op (world s)) as [[e|a] w]; intros [= <- <-]; (split; [exact Hop | easy]).
Qed.

Lemma holds_act (op : W -> W) :
  (forall w, Inv w -> Inv (op w)) -> holds Inv (act op) anything.
Proof. intros Hop s r s' Hs [= <- <-]. split; [now apply Hop | easy]. Qed.

Lemma holds_bind {A B} (m : M W A) (f : A -> M W B) (Q : A -> Prop) (P : B -> Prop) :
  holds Inv m Q -> (forall a, Q a -> holds Inv (f a) P) -> holds Inv (m ≫= f) P.
Proof.
  intros Hm Hf s r s' Hs. unfold mbind, M_bind.
  destruct (m s) as [[a|e|c] s1] eqn:Hms; destruct (Hm _ _ _ Hs Hms) as [Hs1 HQ].
  - apply (Hf a (HQ a eq_refl)). exact Hs1.
  - intros [= <- <-]. split; [exact Hs1 | discriminate].
  - intros [= <- <-]. split; [exact Hs1 | discriminate].
Qed.

Lemma holds_try_catch {A} (m : M W A) (h : error -> M W A) (P : A -> Prop) :
  holds Inv m P -> (forall e, holds Inv (h e) P) -> holds Inv (try_catch m h) P.
Proof.
  intros Hm Hh s r s' Hs. unfold try_catch.
  destruct (m s) as [[a|e|c] s1] eqn:Hms; destruct (Hm _ _ _ Hs Hms) as [Hs1 HP].
  - intros [= <- <-]. split; [exact Hs1 | exact HP].
  - apply Hh. exact Hs1.
  - intros [= <- <-]. split; [exact Hs1 | discriminate].
Qed.

Lemma holds_weaken {A} (m : M W A) (P Q : A -> Prop) :
  holds Inv m P -> (forall a, P a -> Q a) -> holds Inv m Q.
Proof.
  intros Hm HPQ s r s' Hs Hrun. destruct (Hm _ _ _ Hs Hrun) as [Hs' HP].
  split; [exact Hs' | intros a Ha; exact (HPQ a (HP a Ha))].
Qed.

Lemma holds_returns {A} (m : M W A) (P : A -> Prop) :
  holds Inv m anything -> returns m P -> holds Inv m P.
Proof.
  intros Hm HP s r s' Hs Hrun. destruct (Hm _ _ _ Hs Hrun) as [Hs' _].
  split; [exact Hs'|]. intros a ->. exact (HP _ _ _ Hrun).
Qed.

Lemma holds_forEach {A X} (body : A -> X -> M W A) (I : A -> Prop) (xs : list X) :
  (forall acc x, I acc -> holds Inv (body acc x) I) ->
  forall acc, I acc -> holds Inv (forEach body xs acc) I.
Proof.
  intros Hbody. induction xs as [|x xs IH]; intros acc Hacc; cbn.
  - now apply holds_ret.
  - apply (holds_bind _ _ I); [now apply Hbody | exact IH].
Qed.

Lemma holds_run {A} (m : M W A) (P : A -> Prop) s a s' :
  holds Inv m P -> Inv (world s) -> m s = (Ret a, s') -> Inv (world s') /\ P a.
Proof. intros H Hs Hrun. destruct (H _ _ _ Hs Hrun) as [Hs' HP]. auto. Qed.

End Holds.

Ltac holds_step :=
  match goal with
  | |- holds _ (mret _) _ => apply holds_ret
  | |- holds _ (throw _) _ => apply holds_throw
  | |- holds _ (exit _) _ => apply holds_exit
  | |- holds _ (emit _) _ => apply holds_emit
  | |- holds _ (observe _) _ => apply holds_observe
  | |- holds _ (call _) _ => apply holds_call
  | |- holds _ (act _) _ => apply holds_act
  | |- holds _ (try_catch _ _) _ => apply holds_try_catch; [|intros ?]
  | |- holds _ (if ?c then _ else _) _ => destruct c eqn:?
  | |- holds _ (match ?x with _ => _ end) _ => destruct x eqn:?
  | |- holds _ (_ ≫= _) _ => eapply (holds_bind _ _ _ anything); [|intros ? _]
  end.

Create HintDb stable.

Ltac stable_auto :=
  repeat first
    [ exact I
    | solve [auto with stable]
    | holds_step ].

(** ** The report driver on a stable page *)

Section Stable.
Context {W E By : Type} `{!Browser W E By} (Inv : W -> Prop) `{!StablePage Inv}.

Lemma processElement_stable parent by_ locator multiple timeout :
  holds Inv (processElement parent by_ locator multiple timeout) anything.
Proof.
  unfold processElement, printError, printWarning.
  stable_auto; intros w Hw;
    first [apply stable_waitOne | apply stable_waitAll | apply stable_find]; exact Hw.
Qed.

#[local] Hint Resolve processElement_stable : stable.

Lemma getText_stable (e : E) : holds Inv (call (getText e)) anything.
Proof. apply holds_call. intros w Hw. now apply stable_text. Qed.
#[local] Hint Resolve getText_stable : stable.

Lemma readHeaders_stable headerElems : holds Inv (readHeaders headerElems) anything.
Proof.
  unfold readHeaders, iterate.
  eapply (holds_bind _ _ _ anything); [stable_auto|]. intros es _.
  apply holds_forEach; [|exact I]. intros acc x _. stable_auto.
Qed.
#[local] Hint Resolve readHeaders_stable : stable.

Lemma rowFields_stable (cells : located E) headers :
  forall i rowData, holds Inv (rowFields cells i headers rowData) anything.
Proof.
  induction headers as [|h headers IH]; intros i rowData; cbn [rowFields];
    [stable_auto|].
  destruct (excludedHeader h); [apply IH|].
  eapply (holds_bind _ _ _ anything); [stable_auto | intros ? _; apply IH].
Qed.
#[local] Hint Resolve rowFields_stable : stable.

Lemma parseRow_stable headers tableData row :
  holds Inv (parseRow headers tableData row) anything.
Proof. unfold parseRow. stable_auto. Qed.
#[local] Hint Resolve parseRow_stable : stable.

Lemma invoke_stable {A} (v : located E) (method : E -> W -> (error + A) * W) :
  (forall e w, Inv w -> Inv (snd (method e w))) ->
  holds Inv (invoke v method) anything.
Proof.
  intros Hm. unfold invoke. destruct v; stable_auto.
Qed.

Lemma scrapeTableData_stable url : holds Inv (scrapeTableData url) anything.
Proof.
  unfold scrapeTableData, printError, iterate.
  repeat first
    [ exact I
    | solve [auto with stable]
    | match goal with
      | |- holds _ (forEach _ _ _) _ =>
          apply holds_forEach; [intros ? ? _ | exact I]
      end
    | holds_step ].
Qed.

(** Pushing the pages of a report keeps them non-empty and keeps what
    every parse guarantees. *)
Lemma attendancePass_pages (P : list record -> Prop) url currentMonth currentYear
    tableData increment :
  holds Inv (scrapeTableData url) P ->
  pagesAll P tableData ->
  holds Inv (attendancePass url currentMonth currentYear tableData increment)
        (pagesAll P).
Proof.
  intros Hscrape Hall.
  unfold attendancePass, guarded, sleep, printError, printWarning.
  repeat first
    [ apply holds_ret; exact Hall
    | match goal with
      | |- holds _ (scrapeTableData _ ≫= _) _ =>
          apply (holds_bind _ _ _ P); [exact Hscrape | intros scrapedData HP]
      | |- holds _ (mret (_ ++ [_])%list) _ =>
          apply holds_ret; apply pagesAll_push; assumption
      | |- holds _ (invoke _ _) _ =>
          apply invoke_stable; intros ? ? ?;
          first [now apply stable_click | now apply stable_clear | now apply stable_keys]
      | |- holds _ (act _) _ =>
          apply holds_act; intros ? ?; now apply stable_elapse
      | |- holds _ (mret _) anything => apply holds_ret; exact I
      end
    | solve [auto with stable]
    | holds_step ].
Qed.

Lemma driveReport_pages (P : list record -> Prop) url :
  holds Inv (scrapeTableData url) P ->
  holds Inv (driveReport url) (pagesAll P).
Proof.
  intros Hscrape. unfold driveReport.
  destruct (includes "attendance" (toLowerCase url)).
  - eapply (holds_bind _ _ _ anything); [apply holds_observe|]. intros now _.
    apply holds_forEach; [|apply pagesAll_nil].
    intros acc increment Hacc. now apply attendancePass_pages.
  - apply (holds_bind _ _ _ P); [exact Hscrape|]. intros scrapedData HP.
    destruct (0 <? length scrapedData)%nat eqn:Hlen; apply holds_ret.
    + now apply (pagesAll_push P []); [apply pagesAll_nil| |].
    + apply pagesAll_nil.
Qed.

End Stable.

(** Nothing to keep: every world is fine. *)
#[global] Instance anyWorld_stable {W E By : Type} `{!Browser W E By} :
  StablePage (fun _ : W => True).
Proof. constructor; intros; exact I. Qed.

(** C4. No record the table parser produces has a key that contains
    "action" or "attachment", whatever the table and however many of its
    columns carry such names. *)
Theorem records_have_no_excluded_key {W E By : Type} `{!Browser W E By}
    (url : string) (s : state W) (tableData : list record) (s' : state W)
    (rec : record) (key : string) :
  scrapeTableData url s = (Ret tableData, s') ->
  rec ∈ tableData ->
  key ∈ dom rec ->
  includes "action" key = false /\ includes "attachment" key = false.
Proof.
  intros Hrun Hrec Hkey.
  destruct (scrapeTableData_parsed url _ _ _ Hrun) as (headers & Hrows).
  rewrite (parsedRow_keys headers rec (Hrows rec Hrec)) in Hkey.
  apply recordKeys_spec in Hkey as [_ Hkeep].
  apply storedHeader_true in Hkeep as [Hkeep _].
  unfold excludedHeader in Hkeep. now apply orb_false_elim in Hkeep.
Qed.

(** ** The parses of a report *)

Section Parses.
Context {W E By : Type} `{!Browser W E By}.

Lemma readHeaders_texts (es : list E) :
  forall acc (s : state W) headers s',
    forEach (fun headers headerElem =>
               text ← call (getText headerElem);
               mret (headers ++ [normalizeHeader text])%list) es acc s
    = (Ret headers, s') ->
    exists texts,
      TextsRead es s texts s' /\ headers = (acc ++ map normalizeHeader texts)%list.
Proof.
  induction es as [|e es IH]; intros acc s headers s' Hrun; cbn [forEach] in Hrun.
  - apply mret_Ret in Hrun as [<- <-]. exists [].
    split; [constructor | now rewrite app_nil_r].
  - apply bind_Ret in Hrun as (acc1 & s1 & Hstep & Hrun).
    apply bind_Ret in Hstep as (text & s0 & Htext & Hstep).
    apply mret_Ret in Hstep as [<- <-].
    destruct (IH _ _ _ _ Hrun) as (texts & Hread & ->).
    exists (text :: texts). split; [econstructor; eassumption|].
    cbn. now rewrite <- app_assoc.
Qed.

Lemma parseRows_run headers (rows : list E) :
  forall acc (s : state W) tableData s',
    forEach (parseRow headers) rows acc s = (Ret tableData, s') ->
    exists parsed,
      RowsRun headers rows s parsed s' /\ tableData = (acc ++ map snd parsed)%list.
Proof.
  induction rows as [|row rows IH]; intros acc s tableData s' Hrun; cbn [forEach] in Hrun.
  - apply mret_Ret in Hrun as [<- <-]. exists [].
    split; [constructor | now rewrite app_nil_r].
  - apply bind_Ret in Hrun as (acc1 & s2 & Hrow & Hrun).
    unfold parseRow in Hrow.
    apply bind_Ret in Hrow as (cells & s1 & Hcells & Hrow).
    destruct (truthy cells) eqn:Htruthy; cbn [negb] in Hrow.
    + apply bind_Ret in Hrow as (rowData & s3 & Hfields & Hrow).
      apply mret_Ret in Hrow as [<- <-].
      destruct (IH _ _ _ _ Hrun) as (parsed & Hrows & ->).
      exists ((cells, rowData) :: parsed). split; [econstructor; eassumption|].
      cbn. now rewrite <- app_assoc.
    + apply mret_Ret in Hrow as [<- <-].
      destruct (IH _ _ _ _ Hrun) as (parsed & Hrows & ->).
      exists parsed. split; [eapply RowSkipped; eassumption | reflexivity].
Qed.

(** A parse that returns records got as far as the rows. *)
Lemma scrapeTableData_run url (s : state W) tableData s' :
  scrapeTableData url s = (Ret tableData, s') ->
  tableData = [] \/
  exists texts parsed, TableRun s texts parsed s' /\ tableData = map snd parsed.
Proof.
  intros Hrun. unfold scrapeTableData, printError in Hrun.
  apply bind_Ret in Hrun as (table & s1 & Htable & Hrun).
  destruct (truthy table); cbn [negb] in Hrun.
  2:{ left. apply bind_Ret in Hrun as (? & ? & _ & Hrun).
      now apply mret_Ret in Hrun as [<- _]. }
  apply bind_Ret in Hrun as (header & s2 & Hheader & Hrun).
  destruct (truthy header); cbn [negb] in Hrun.
  2:{ left. apply bind_Ret in Hrun as (? & ? & _ & Hrun).
      now apply mret_Ret in Hrun as [<- _]. }
  apply bind_Ret in Hrun as (headerElems & s3 & Hths & Hrun).
  destruct (truthy headerElems); cbn [negb] in Hrun.
  2:{ left. apply bind_Ret in Hrun as (? & ? & _ & Hrun).
      now apply mret_Ret in Hrun as [<- _]. }
  apply bind_Ret in Hrun as (headers & s4 & Hread & Hrun).
  unfold readHeaders in Hread. apply bind_Ret in Hread as (es & s3' & Hiter & Hread).
  destruct headerElems as [|e|ths]; cbn in Hiter; try discriminate.
  apply mret_Ret in Hiter as [<- <-].
  apply readHeaders_texts in Hread as (texts & Htexts & Hheaders).
  cbn in Hheaders. subst headers.
  apply bind_Ret in Hrun as (tbody & s5 & Htbody & Hrun).
  destruct (truthy tbody); cbn [negb] in Hrun.
  2:{ left. apply bind_Ret in Hrun as (? & ? & _ & Hrun).
      now apply mret_Ret in Hrun as [<- _]. }
  apply bind_Ret in Hrun as (rows & s6 & Hrows & Hrun).
  destruct (truthy rows); cbn [negb] in Hrun.
  2:{ left. now apply mret_Ret in Hrun as [<- _]. }
  apply bind_Ret in Hrun as (rs & s6' & Hiter & Hrun).
  destruct rows as [|e|rs0]; cbn in Hiter; try discriminate.
  apply mret_Ret in Hiter as [<- <-].
  apply parseRows_run in Hrun as (parsed & Hparsed & ->).
  right. exists texts, parsed. split; [|reflexivity].
  exists table, header, ths, tbody, rs0, s1, s2, s3, s4, s5, s6.
  repeat split; assumption.
Qed.

Lemma RowsRun_parsed headers rows (s : state W) parsed s' :
  RowsRun headers rows s parsed s' ->
  forall cells rec,
    (cells, rec) ∈ parsed ->
    exists s1 s2, rowFields cells 0 headers ∅ s1 = (Ret rec, s2).
Proof.
  induction 1 as [| |row rows s cells s1 rowData s2 parsed s' Hcells Htruthy Hfields Hrest IH];
    intros c r Hin; [inversion Hin | eauto |].
  apply elem_of_cons in Hin as [[= -> ->]|Hin]; eauto.
Qed.






End Parses.


(** ** Aggregate *)

Section Aggregate.
Context {W E By : Type} `{!Browser W E By}.
Variable nav_url : string.

Lemma reportStep_run mainTableData url (s : state W) agg s' :
  reportStep nav_url mainTableData url s = (Ret agg, s') ->
  exists s1 s2 tableData,
    navigate nav_url url s = (Ret tt, s1) /\
    driveReport url s1 = (Ret tableData, s2) /\
    (tableData = [] /\ s' = s2 \/
     tableData <> [] /\
     printSuccess ("Successfully scraped " ++ capitalizeFirst url ++ " table.") s2
     = (Ret tt, s')) /\
    agg = aggregateOf mainTableData [(url, tableData)].
Proof.
  intros Hrun. unfold reportStep in Hrun.
  apply bind_Ret in Hrun as ([] & s1 & Hnav & Hrun).
  apply bind_Ret in Hrun as (tableData & s2 & Hdrive & Hrun).
  exists s1, s2, tableData. split; [exact Hnav|]. split; [exact Hdrive|].
  destruct tableData as [|page tableData]; cbn in Hrun.
  - apply mret_Ret in Hrun as [<- <-]. split; [now left | reflexivity].
  - apply bind_Ret in Hrun as ([] & s3 & Hlog & Hrun).
    apply mret_Ret in Hrun as [<- <-]. split; [|reflexivity].
    right. split; [discriminate | exact Hlog].
Qed.

Lemma collect_runs urls :
  forall mainTableData (s : state W) agg s',
    forEach (reportStep nav_url) urls mainTableData s = (Ret agg, s') ->
    exists runs,
      ReportsRun nav_url urls s runs s' /\
      map fst runs = urls /\
      agg = aggregateOf mainTableData runs.
Proof.
  induction urls as [|url urls IH]; intros mainTableData s agg s' Hrun; cbn in Hrun.
  - apply mret_Ret in Hrun as [<- <-]. exists []. repeat split. constructor.
  - apply bind_Ret in Hrun as (agg1 & s3 & Hstep & Hrun).
    apply reportStep_run in Hstep as (s1 & s2 & tableData & Hnav & Hdrive & Hlog & ->).
    destruct (IH _ _ _ _ Hrun) as (runs & Hruns & Hnames & ->).
    exists ((url, tableData) :: runs). split; [|split].
    + econstructor; eassumption.
    + cbn. now rewrite Hnames.
    + reflexivity.
Qed.

(** Every run in [runs] pushed non-empty pages only. *)
Lemma ReportsRun_pages urls (s : state W) runs s' :
  ReportsRun nav_url urls s runs s' ->
  forall url tableData, (url, tableData) ∈ runs -> pagesAll (fun _ => True) tableData.
Proof.
  induction 1 as [|url urls s s1 s2 s3 tableData runs s' Hnav Hdrive Hlog Hrest IH];
    intros u td Hin; [inversion Hin|].
  apply elem_of_cons in Hin as [[= -> ->]|Hin]; [|eauto].
  destruct (holds_run (fun _ => True) _ _ _ _ _
              (driveReport_pages (fun _ => True) (fun _ => True) url
                 (scrapeTableData_stable (fun _ => True) url))
              I Hdrive) as [_ Hpages].
  exact Hpages.
Qed.

Lemma pages_concat_nil (tableData : list (list record)) :
  pagesAll (fun _ => True) tableData -> concat tableData = [] -> tableData = [].
Proof.
  destruct tableData as [|page rest]; [reflexivity|]. intros Hall Hnil.
  destruct (Hall page ltac:(left)) as [Hne _].
  cbn in Hnil. apply app_eq_nil in Hnil as [-> _]. congruence.
Qed.

Lemma aggregateOf_cons start url tableData runs :
  aggregateOf start ((url, tableData) :: runs) =
  aggregateOf (match tableData with
               | [] => start
               | _ => <[url := concat tableData]> start
               end) runs.
Proof. reflexivity. Qed.

Lemma aggregateOf_other start runs url :
  url ∉ map fst runs -> aggregateOf start runs !! url = start !! url.
Proof.
  revert start. induction runs as [|[u td] runs IH]; intros start Hnot; [reflexivity|].
  cbn in Hnot. apply not_elem_of_cons in Hnot as [Hne Hnot].
  rewrite aggregateOf_cons.
  rewrite (IH _ Hnot). destruct td; [reflexivity|]. now apply lookup_insert_ne.
Qed.

Lemma aggregateOf_run start runs url tableData :
  NoDup (map fst runs) ->
  (url, tableData) ∈ runs ->
  aggregateOf start runs !! url =
  match tableData with
  | [] => start !! url
  | _ => Some (concat tableData)
  end.
Proof.
  revert start. induction runs as [|[u td] runs IH]; intros start Hnodup Hin;
    [inversion Hin|].
  cbn in Hnodup. apply NoDup_cons in Hnodup as [Hfresh Hnodup].
  rewrite aggregateOf_cons.
  apply elem_of_cons in Hin as [[= -> ->]|Hin].
  - rewrite (aggregateOf_other _ _ _ Hfresh).
    destruct td; [reflexivity|]. apply lookup_insert_eq.
  - rewrite (IH _ Hnodup Hin).
    destruct tableData; [|reflexivity].
    destruct td; [reflexivity|]. apply lookup_insert_ne.
    intros ->. apply Hfresh. apply list_elem_of_fmap. exists (url, []). now split.
Qed.

Lemma aggregateOf_key start runs url recs :
  aggregateOf start runs !! url = Some recs ->
  start !! url = Some recs \/
  exists tableData, (url, tableData) ∈ runs /\ tableData <> [] /\ recs = concat tableData.
Proof.
  revert start. induction runs as [|[u td] runs IH]; intros start Hlook; [now left|].
  rewrite aggregateOf_cons in Hlook.
  apply IH in Hlook as [Hlook|(tableData & Hin & Hne & ->)].
  - destruct td as [|page td]; [now left|].
    apply lookup_insert_Some in Hlook as [[<- <-]|[_ Hlook]]; [|now left].
    right. exists (page :: td). split; [left | split; [discriminate | reflexivity]].
  - right. exists tableData. split; [now right | split; [exact Hne | reflexivity]].
Qed.

End Aggregate.

(** C7. After the loop over the four reports, a report that scraped no
    record at all (none of its passes pushed a page) has no key in the
    aggregate; a report that scraped records is stored under its name
    with its flattened list; and every key of the aggregate is the name of
    such a report, so that every stored list is non-empty. *)
Theorem empty_reports_are_omitted {W E By : Type} `{!Browser W E By} (nav_url : string)
    (s : state W) (agg : aggregate) (s' : state W) :
  collectReports nav_url s = (Ret agg, s') ->
  exists runs,
    ReportsRun nav_url urlList s runs s' /\
    map fst runs = urlList /\
    (forall url tableData page,
        (url, tableData) ∈ runs -> page ∈ tableData -> page <> []) /\
    (forall url tableData,
        (url, tableData) ∈ runs -> concat tableData = [] -> agg !! url = None) /\
    (forall url tableData,
        (url, tableData) ∈ runs -> concat tableData <> [] ->
        agg !! url = Some (concat tableData)) /\
    (forall url recs,
        agg !! url = Some recs ->
        recs <> [] /\
        exists tableData, (url, tableData) ∈ runs /\ recs = concat tableData).
Proof.
  intros Hrun. unfold collectReports in Hrun.
  destruct (collect_runs nav_url urlList ∅ s agg s' Hrun) as (runs & Hruns & Hnames & ->).
  assert (NoDup (map fst runs)) as Hnodup.
  { rewrite Hnames. unfold urlList. repeat constructor; set_solver. }
  pose proof (ReportsRun_pages nav_url _ _ _ _ Hruns) as Hpages.
  exists runs. split; [exact Hruns|]. split; [exact Hnames|]. split; [|split; [|split]].
  - intros url tableData page Hin Hpage. exact (proj1 (Hpages _ _ Hin page Hpage)).
  - intros url tableData Hin Hnil.
    rewrite (aggregateOf_run ∅ runs url tableData Hnodup Hin).
    rewrite (pages_concat_nil tableData (Hpages _ _ Hin) Hnil). apply lookup_empty.
  - intros url tableData Hin Hsome.
    rewrite (aggregateOf_run ∅ runs url tableData Hnodup Hin).
    destruct tableData; [now cbn in Hsome | reflexivity].
  - intros url recs Hlook.
    apply aggregateOf_key in Hlook as [Hlook|(tableData & Hin & Hne & ->)];
      [now rewrite lookup_empty in Hlook|].
    split; [|eauto].
    intros Hnil. apply Hne. exact (pages_concat_nil tableData (Hpages _ _ Hin) Hnil).
Qed.

(** ** The program on concrete pages *)

Section OnPages.
Import Fixture.

(** Two report pages, as the parser sees them with a driver that finds
    elements by tag name. The unscoped search for rows and cells shows:
    the header row counts as a row, and every row is given the cells of
    the whole document. *)
Example weekPage_scrape :
  fst (scrapeTableData "overtime" (showing weekPage)) =
  Ret [ {[ "day" := "mon"; "hours" := "8" ]};
        {[ "day" := "mon"; "hours" := "8" ]};
        {[ "day" := "mon"; "hours" := "8" ]} ].
Proof. vm_compute. reflexivity. Qed.

(** A short row below a full one is not seen as short: its fields are
    filled from the cells of the document, in document order. *)
Example raggedPage_scrape :
  fst (scrapeTableData "overtime" (showing raggedPage)) =
  Ret [ {[ "day" := "mon"; "hours" := "8" ]};
        {[ "day" := "mon"; "hours" := "8" ]};
        {[ "day" := "mon"; "hours" := "8" ]} ].
Proof. vm_compute. reflexivity. Qed.

Example attendancePage_scrape :
  fst (scrapeTableData "attendance" (showing attendancePage)) =
  Ret [ {[ "date" := "2024-01-05"; "time_in" := "08:00" ]};
        {[ "date" := "2024-01-05"; "time_in" := "08:00" ]} ].
Proof. vm_compute. reflexivity. Qed.

(** In January the first attendance query never happens: no month
    option contains "undefined". *)
Example january_run :
  calls (trace (snd (driveReport "attendance"
                       (mkState (mkWorld attendancePage [] [] (0, 2024)%Z None) []))))
  = [Timer 2000; Timer 2000] /\
  In (Log Warning "Month option 'undefined' not found.")
     (trace (snd (driveReport "attendance"
                    (mkState (mkWorld attendancePage [] [] (0, 2024)%Z None) [])))).
Proof. vm_compute. auto. Qed.

End OnPages.


(** C8, as stated, fails: a probe answered with status 204, which HTTP
    counts as a success, does not make the check succeed. *)
Lemma checkInternet_rejects_204 :
  ~ (forall (s : state Fixture.staticWorld) (status : Z) w,
        axios_get Fixture.base global_timeout (world s) = (inr status, w) ->
        httpSuccess status ->
        fst (checkInternet Fixture.base global_timeout 3 s) = Ret true).
Proof.
  intros Hclaim.
  specialize (Hclaim (Fixture.start [] [inr 204%Z; inr 204%Z; inr 204%Z] (0, 2024)%Z)
                     204%Z _ eq_refl ltac:(unfold httpSuccess; lia)).
  vm_compute in Hclaim. discriminate Hclaim.
Qed.

(** C10, as stated, fails: when no probe is answered and the session is
    gone, the check neither returns [true] nor ends the process; it
    throws what [driver.quit()] rejected with. *)
Lemma checkInternet_can_throw :
  fst (@checkInternet _ _ _ Fixture.deadSession Fixture.base global_timeout 3
         (Fixture.start [] [] (0, 2024)%Z))
  = Throw Fixture.sessionGone /\
  ~ (fst (@checkInternet _ _ _ Fixture.deadSession Fixture.base global_timeout 3
            (Fixture.start [] [] (0, 2024)%Z)) = Ret true \/
     exists code,
       fst (@checkInternet _ _ _ Fixture.deadSession Fixture.base global_timeout 3
              (Fixture.start [] [] (0, 2024)%Z)) = Exit code).
Proof.
  assert (fst (@checkInternet _ _ _ Fixture.deadSession Fixture.base global_timeout 3
                 (Fixture.start [] [] (0, 2024)%Z))
          = Throw Fixture.sessionGone) as Hrun by (vm_compute; reflexivity).
  split; [exact Hrun|]. rewrite Hrun. intros [H|[code H]]; discriminate H.
Qed.



(** A header cell that reads [__proto__] gives no key. *)
Example protoPage_scrape :
  fst (scrapeTableData "overtime" (Fixture.showing Fixture.protoPage)) =
  Ret [ {[ "date" := "2024-01-05" ]}; {[ "date" := "2024-01-05" ]} ].
Proof. vm_compute. reflexivity. Qed.

(** One cell for three headers: the header without a cell gets the empty
    string, the excluded one nothing. *)
Example shortRowPage_scrape :
  fst (scrapeTableData "overtime" (Fixture.showing Fixture.shortRowPage)) =
  Ret [ {[ "date" := "2024-01-05"; "hours" := "" ]};
        {[ "date" := "2024-01-05"; "hours" := "" ]} ].
Proof. vm_compute. reflexivity. Qed.

(** The excluded-column property at work on the attendance page, whose
    table has an "Action" column. *)
Lemma records_have_no_excluded_key_witness :
  includes "action" "time_in" = false /\ includes "attachment" "time_in" = false.
Proof.
  apply (records_have_no_excluded_key "attendance"
           (Fixture.showing Fixture.attendancePage)
           (Fixture.valueOr []
              (fst (scrapeTableData "attendance" (Fixture.showing Fixture.attendancePage))))
           (snd (scrapeTableData "attendance" (Fixture.showing Fixture.attendancePage)))
           {[ "date" := "2024-01-05"; "time_in" := "08:00" ]}
           "time_in").
  - vm_compute. reflexivity.
  - vm_compute. left.
  - apply elem_of_dom. vm_compute. eexists. reflexivity.
Defined.


(** The omission property on the fixture portal: attendance and overtime
    have rows, official business has no table, leave has an empty one. *)
Lemma empty_reports_are_omitted_witness :
  exists runs,
    ReportsRun Fixture.base urlList
      (Fixture.start Fixture.portal [] (3, 2024)%Z) runs
      (snd (collectReports Fixture.base (Fixture.start Fixture.portal [] (3, 2024)%Z))) /\
    map fst runs = urlList /\
    (forall url tableData page,
        (url, tableData) ∈ runs -> page ∈ tableData -> page <> []) /\
    (forall url tableData,
        (url, tableData) ∈ runs -> concat tableData = [] ->
        Fixture.valueOr ∅
          (fst (collectReports Fixture.base (Fixture.start Fixture.portal [] (3, 2024)%Z)))
        !! url = None) /\
    (forall url tableData,
        (url, tableData) ∈ runs -> concat tableData <> [] ->
        Fixture.valueOr ∅
          (fst (collectReports Fixture.base (Fixture.start Fixture.portal [] (3, 2024)%Z)))
        !! url = Some (concat tableData)) /\
    (forall url recs,
        Fixture.valueOr ∅
          (fst (collectReports Fixture.base (Fixture.start Fixture.portal [] (3, 2024)%Z)))
        !! url = Some recs ->
        recs <> [] /\
        exists tableData, (url, tableData) ∈ runs /\ recs = concat tableData).
Proof.
  apply (empty_reports_are_omitted Fixture.base
           (Fixture.start Fixture.portal [] (3, 2024)%Z)).
  vm_compute. reflexivity.
Defined.

(** * Further properties of the program *)

Section TraceLogic.
Context {W : Type}.

Lemma teardowns_app evs evs' : teardowns (evs ++ evs') = (teardowns evs + teardowns evs')%nat.
Proof. unfold teardowns. now rewrite List.filter_app, length_app. Qed.

Lemma benign_ret {A} P (a : A) : benign P (mret a : M W A).
Proof. intros s r s' [= <- <-]. exists []. rewrite app_nil_r. repeat split. discriminate. Qed.

Lemma benign_throw {A} P (e : error) : benign P (throw e : M W A).
Proof. intros s r s' [= <- <-]. exists []. rewrite app_nil_r. repeat split. discriminate. Qed.

Lemma benign_emit P (ev : event) : P ev = true -> benign P (emit ev : M W unit).
Proof.
  intros HP s r s' [= <- <-]. exists [ev]. cbn. rewrite HP. repeat split. discriminate.
Qed.

Lemma benign_call {A} P (op : W -> (error + A) * W) : benign P (call op).
Proof.
  intros s r s'. unfold call. destruct (op (world s)) as [[e|a] w]; intros [= <- <-];
    exists []; cbn; rewrite app_nil_r; repeat split; discriminate.
Qed.

Lemma benign_act P (op : W -> W) : benign P (act op).
Proof. intros s r s' [= <- <-]. exists []. cbn. rewrite app_nil_r. repeat split. discriminate. Qed.

Lemma benign_observe {A} P (f : W -> A) : benign P (observe f).
Proof. intros s r s' [= <- <-]. exists []. rewrite app_nil_r. repeat split. discriminate. Qed.

Lemma benign_bind {A B} P (m : M W A) (f : A -> M W B) :
  benign P m -> (forall a, benign P (f a)) -> benign P (m ≫= f).
Proof.
  intros Hm Hf s r s'. unfold mbind, M_bind.
  destruct (m s) as [r1 s1] eqn:Hms.
  destruct (Hm _ _ _ Hms) as (evs1 & Htr1 & Hne1 & HP1).
  destruct r1 as [a|e|c].
  - intros Hrun. destruct (Hf a _ _ _ Hrun) as (evs2 & Htr2 & Hne2 & HP2).
    exists (evs1 ++ evs2)%list. rewrite Htr2, Htr1, <- app_assoc.
    split; [reflexivity|]. split; [exact Hne2|]. rewrite forallb_app, HP1, HP2. reflexivity.
  - intros [= <- <-]. exists evs1. repeat split; [exact Htr1 | discriminate | exact HP1].
  - now destruct (Hne1 c).
Qed.

Lemma benign_try_catch {A} P (m : M W A) (h : error -> M W A) :
  benign P m -> (forall e, benign P (h e)) -> benign P (try_catch m h).
Proof.
  intros Hm Hh s r s'. unfold try_catch.
  destruct (m s) as [r1 s1] eqn:Hms.
  destruct (Hm _ _ _ Hms) as (evs1 & Htr1 & Hne1 & HP1).
  destruct r1 as [a|e|c].
  - intros [= <- <-]. exists evs1. repeat split; [exact Htr1 | discriminate | exact HP1].
  - intros Hrun. destruct (Hh e _ _ _ Hrun) as (evs2 & Htr2 & Hne2 & HP2).
    exists (evs1 ++ evs2)%list. rewrite Htr2, Htr1, <- app_assoc.
    split; [reflexivity|]. split; [exact Hne2|]. rewrite forallb_app, HP1, HP2. reflexivity.
  - now destruct (Hne1 c).
Qed.

Lemma benign_forEach {A X} P (body : A -> X -> M W A) (xs : list X) :
  (forall acc x, benign P (body acc x)) -> forall acc, benign P (forEach body xs acc).
Proof.
  intros Hbody. induction xs as [|x xs IH]; intros acc; cbn.
  - apply benign_ret.
  - apply benign_bind; [apply Hbody | exact IH].
Qed.

Lemma benign_weaken {A} (P Q : event -> bool) (m : M W A) :
  (forall ev, P ev = true -> Q ev = true) -> benign P m -> benign Q m.
Proof.
  intros HPQ Hm s r s' Hrun. destruct (Hm _ _ _ Hrun) as (evs & Htr & Hne & HP).
  exists evs. split; [exact Htr|]. split; [exact Hne|].
  apply forallb_forall. intros ev Hin. apply HPQ.
  exact (proj1 (forallb_forall P evs) HP ev Hin).
Qed.

Lemma quiet_teardowns (P : event -> bool) evs :
  (forall ev, P ev = true -> isTeardown ev = false) ->
  forallb P evs = true -> teardowns evs = 0%nat.
Proof.
  intros HP. induction evs as [|ev evs IH]; cbn; [reflexivity|].
  intros H. apply andb_prop in H as [Hev Hrest].
  unfold teardowns in *. cbn. rewrite (HP ev Hev). now apply IH.
Qed.

End TraceLogic.

Ltac benign_step :=
  match goal with
  | |- benign _ (mret _) => apply benign_ret
  | |- benign _ (throw _) => apply benign_throw
  | |- benign _ (emit _) => apply benign_emit; reflexivity
  | |- benign _ (printError _) => apply benign_emit; reflexivity
  | |- benign _ (printWarning _) => apply benign_emit; reflexivity
  | |- benign _ (printSuccess _) => apply benign_emit; reflexivity
  | |- benign _ (observe _) => apply benign_observe
  | |- benign _ (call _) => apply benign_call
  | |- benign _ (act _) => apply benign_act
  | |- benign _ (try_catch _ _) => apply benign_try_catch; [|intros ?]
  | |- benign _ (forEach _ _ _) => apply benign_forEach; intros ? ?
  | |- benign _ (if ?c then _ else _) => destruct c eqn:?
  | |- benign _ (match ?x with _ => _ end) => destruct x eqn:?
  | |- benign _ (_ ≫= _) => apply benign_bind; [|intros ?]
  end.

Create HintDb benign.

Ltac benign_auto := repeat first [ solve [auto with benign] | benign_step ].

Section Benign.
Context {W E By : Type} `{!Browser W E By}.

Lemma processElement_benign parent by_ locator multiple timeout :
  benign consoleOrTimer (processElement parent by_ locator multiple timeout).
Proof. unfold processElement, printError, printWarning. benign_auto. Qed.
#[local] Hint Resolve processElement_benign : benign.

Lemma invoke_benign {A} (v : located E) (method : E -> W -> (error + A) * W) :
  benign consoleOrTimer (invoke v method).
Proof. unfold invoke. benign_auto. Qed.
#[local] Hint Resolve invoke_benign : benign.

Lemma rowFields_benign (cells : located E) headers :
  forall i rowData, benign consoleOrTimer (rowFields cells i headers rowData).
Proof.
  induction headers as [|h headers IH]; intros i rowData; cbn [rowFields];
    [apply benign_ret|].
  destruct (excludedHeader h); [apply IH|].
  apply benign_bind; [benign_auto | intros ?; apply IH].
Qed.
#[local] Hint Resolve rowFields_benign : benign.

Lemma scrapeTableData_benign url : benign consoleOrTimer (scrapeTableData url).
Proof.
  unfold scrapeTableData, readHeaders, parseRow, iterate, printError. benign_auto.
Qed.
#[local] Hint Resolve scrapeTableData_benign : benign.

Lemma attendancePass_benign url currentMonth currentYear tableData increment :
  benign consoleOrTimer
    (attendancePass url currentMonth currentYear tableData increment).
Proof.
  unfold attendancePass, guarded, sleep, printError, printWarning. benign_auto.
Qed.
#[local] Hint Resolve attendancePass_benign : benign.

Lemma driveReport_benign url : benign consoleOrTimer (driveReport url).
Proof. unfold driveReport. benign_auto. Qed.

End Benign.

(** ** Calls of [driver.quit()] *)

Section Teardowns.
Context {W E By : Type} `{!Browser W E By}.
Variable detached : bool.

Lemma noTeardown_spec ev : noTeardown ev = true -> isTeardown ev = false.
Proof. unfold noTeardown. now destruct (isTeardown ev). Qed.

Lemma quiet_noTeardown {A} (m : M W A) : benign consoleOrTimer m -> benign noTeardown m.
Proof. apply benign_weaken. now intros []. Qed.

Lemma rejected_quiet evs : teardowns evs = 0%nat -> Forall rejected evs.
Proof.
  induction evs as [|ev evs IH]; [constructor|].
  unfold teardowns in *. destruct ev; cbn; try discriminate;
    intros Hev; (constructor; [exact I | now apply IH]).
Qed.

Lemma wound_prepend {A} (r : result A) evs1 evs2 :
  Forall rejected evs1 -> wound detached r evs2 -> wound detached r (evs1 ++ evs2).
Proof.
  intros H1 (before & outcome & -> & Hb & Hgen & Hv).
  exists (evs1 ++ before)%list, outcome. rewrite app_assoc.
  repeat split; auto. apply Forall_app; auto.
Qed.

Lemma wound_throw_rejected {A} e evs :
  wound detached (Throw e : result A) evs -> Forall rejected evs.
Proof.
  intros (before & outcome & -> & Hb & Hgen & Hv). cbn in Hv. subst outcome.
  apply Forall_app. split; [exact Hb|]. constructor; [|constructor].
  exists e. split; [reflexivity|]. now apply Hgen.
Qed.

Lemma tidy_throw_rejected {A} e evs :
  tidyEnd detached (Throw e : result A) evs -> Forall rejected evs.
Proof.
  intros [H|H]; [now apply rejected_quiet | exact (wound_throw_rejected e evs H)].
Qed.

Lemma tidyEnd_prepend {A} (r : result A) evs1 evs2 :
  teardowns evs1 = 0%nat -> tidyEnd detached r evs2 -> tidyEnd detached r (evs1 ++ evs2).
Proof.
  intros H1 H2. pose proof (rejected_quiet evs1 H1) as Hq.
  destruct r as [b|e|c]; cbn in *.
  - now rewrite teardowns_app, H1, H2.
  - destruct H2 as [H2|H2].
    + left. now rewrite teardowns_app, H1, H2.
    + right. now apply wound_prepend.
  - now apply wound_prepend.
Qed.

Lemma tidy_of_benign {A} (P : event -> bool) (m : M W A) :
  (forall ev, P ev = true -> isTeardown ev = false) -> benign P m -> tidy detached m.
Proof.
  intros HP Hm s r s' Hrun. destruct (Hm _ _ _ Hrun) as (evs & Htr & Hne & Hall).
  exists evs. split; [exact Htr|].
  pose proof (quiet_teardowns P evs HP Hall) as H0.
  destruct r as [a|e|c]; cbn; [exact H0 | now left | now destruct (Hne c)].
Qed.

Lemma tidy_of_quiet {A} (m : M W A) : benign noTeardown m -> tidy detached m.
Proof. apply tidy_of_benign, noTeardown_spec. Qed.

Lemma tidy_ret {A} (a : A) : tidy detached (mret a : M W A).
Proof. apply tidy_of_quiet, benign_ret. Qed.

Lemma tidy_throw {A} (e : error) : tidy detached (throw e : M W A).
Proof. apply tidy_of_quiet, benign_throw. Qed.

Lemma tidy_call {A} (op : W -> (error + A) * W) : tidy detached (call op).
Proof. apply tidy_of_quiet, benign_call. Qed.

Lemma tidy_observe {A} (f : W -> A) : tidy detached (observe f).
Proof. apply tidy_of_quiet, benign_observe. Qed.

Lemma tidy_emit (ev : event) : noTeardown ev = true -> tidy detached (emit ev : M W unit).
Proof. intros Hev. now apply tidy_of_quiet, benign_emit. Qed.

Lemma tidy_bind {A B} (m : M W A) (f : A -> M W B) :
  tidy detached m -> (forall a, tidy detached (f a)) -> tidy detached (m ≫= f).
Proof.
  intros Hm Hf s r s'. unfold mbind, M_bind.
  destruct (m s) as [r1 s1] eqn:Hms.
  destruct (Hm _ _ _ Hms) as (evs1 & Htr1 & H1).
  destruct r1 as [a|e|c].
  - intros Hrun. destruct (Hf a _ _ _ Hrun) as (evs2 & Htr2 & H2).
    exists (evs1 ++ evs2)%list. rewrite Htr2, Htr1, <- app_assoc.
    split; [reflexivity|]. now apply tidyEnd_prepend.
  - intros [= <- <-]. exists evs1. split; [exact Htr1 | exact H1].
  - intros [= <- <-]. exists evs1. split; [exact Htr1 | exact H1].
Qed.

(** A [try] whose body does not call [driver.quit()]. *)
Lemma tidy_try_catch {A} (m : M W A) (h : error -> M W A) :
  benign noTeardown m -> (forall e, tidy detached (h e)) -> tidy detached (try_catch m h).
Proof.
  intros Hm Hh s r s'. unfold try_catch.
  destruct (m s) as [r1 s1] eqn:Hms.
  destruct (Hm _ _ _ Hms) as (evs1 & Htr1 & Hne1 & HP1).
  pose proof (quiet_teardowns noTeardown evs1 noTeardown_spec HP1) as H0.
  destruct r1 as [a|e|c].
  - intros [= <- <-]. exists evs1. split; [exact Htr1 | exact H0].
  - intros Hrun. destruct (Hh e _ _ _ Hrun) as (evs2 & Htr2 & H2).
    exists (evs1 ++ evs2)%list. rewrite Htr2, Htr1, <- app_assoc.
    split; [reflexivity|]. now apply tidyEnd_prepend.
  - now destruct (Hne1 c).
Qed.

(** A [try] whose handler ends in [driver.quit()]. *)
Lemma sealed_try_catch {A} (m : M W A) (h : error -> M W A) :
  tidy detached m -> (forall e, fatal detached (h e)) -> sealed detached (try_catch m h).
Proof.
  intros Hm Hh s r s'. unfold try_catch.
  destruct (m s) as [r1 s1] eqn:Hms.
  destruct (Hm _ _ _ Hms) as (evs1 & Htr1 & H1).
  destruct r1 as [a|e|c].
  - intros [= <- <-]. exists evs1. split; [exact Htr1 | exact H1].
  - intros Hrun. destruct (Hh e _ _ _ Hrun) as (evs2 & Htr2 & Hnr & H2).
    exists (evs1 ++ evs2)%list. rewrite Htr2, Htr1, <- app_assoc.
    split; [reflexivity|].
    pose proof (tidy_throw_rejected e evs1 H1) as Hq.
    destruct r as [b|e'|c]; [now destruct (Hnr b) | |]; cbn; now apply wound_prepend.
  - intros [= <- <-]. exists evs1. split; [exact Htr1 | exact H1].
Qed.

Lemma sealed_tidy {A} (m : M W A) : sealed detached m -> tidy detached m.
Proof.
  intros Hm s r s' Hrun. destruct (Hm _ _ _ Hrun) as (evs & Htr & Hend).
  exists evs. split; [exact Htr|]. destruct r; cbn in *; auto.
Qed.

Lemma tidy_forEach {A X} (body : A -> X -> M W A) (xs : list X) :
  (forall acc x, tidy detached (body acc x)) ->
  forall acc, tidy detached (forEach body xs acc).
Proof.
  intros Hbody. induction xs as [|x xs IH]; intros acc; cbn.
  - apply tidy_ret.
  - apply tidy_bind; [apply Hbody | exact IH].
Qed.

(** The fatal ending: the failure line, [await driver.quit()], the end of
    the process. *)
Lemma fatal_ending {A} msg : fatal detached (printError msg;; quit;; exit 1 : M W A).
Proof.
  intros s r s' Hrun. rewrite fatal_run in Hrun. injection Hrun as <- <-.
  exists [Log Failure msg; Teardown (Some (fst (driver_quit (world s))))].
  split; [reflexivity|]. split.
  - intros a. destruct (fst (driver_quit (world s))); discriminate.
  - exists [Log Failure msg], (Some (fst (driver_quit (world s)))).
    split; [reflexivity|]. split; [repeat constructor|]. split.
    + intros e [= He]. now exists (world s).
    + destruct (fst (driver_quit (world s))) as [e|[]]; cbn;
        [reflexivity | split; [reflexivity | now left]].
Qed.

Lemma fatal_tidy {A} (m : M W A) : fatal detached m -> tidy detached m.
Proof.
  intros Hm s r s' Hrun. destruct (Hm _ _ _ Hrun) as (evs & Htr & Hnr & Hend).
  exists evs. split; [exact Htr|].
  destruct r as [a|e|c]; cbn; [now destruct (Hnr a) | now right | exact Hend].
Qed.

Lemma tidy_fatal {A} msg : tidy detached (printError msg;; quit;; exit 1 : M W A).
Proof. apply fatal_tidy, fatal_ending. Qed.

End Teardowns.

Section Detached.
Context {W E By : Type} `{!Browser W E By}.

(** The fatal ending with a [driver.quit()] that is not awaited. *)
Lemma tidy_fatal_detached {A} msg :
  tidy true (printError msg;; quitDetached;; exit 1 : M W A).
Proof.
  intros s r s' [= <- <-]. exists [Log Failure msg; Teardown None]. split.
  - cbn. now rewrite <- app_assoc.
  - exists [Log Failure msg], None. split; [reflexivity|].
    split; [repeat constructor|]. split; [discriminate|].
    cbn. split; [reflexivity | now right].
Qed.

(** What holds without an unawaited call holds with one allowed. *)
Lemma wound_detached {A} (r : result A) evs : wound false r evs -> wound true r evs.
Proof.
  intros (before & outcome & -> & Hb & Hgen & Hv).
  exists before, outcome. repeat split; auto.
  destruct r as [a|e|c]; cbn in *; auto.
  destruct Hv as [-> [->|[Hd _]]]; [split; [reflexivity | now left] | discriminate].
Qed.

Lemma tidy_detached {A} (m : M W A) : tidy false m -> tidy true m.
Proof.
  intros Hm s r s' Hrun. destruct (Hm _ _ _ Hrun) as (evs & Htr & Hend).
  exists evs. split; [exact Htr|].
  destruct r as [a|e|c]; cbn in *; [exact Hend | | now apply wound_detached].
  destruct Hend as [H0|Hw]; [now left | right; now apply wound_detached].
Qed.

End Detached.

Ltac tidy_step :=
  match goal with
  | |- tidy _ (mret _) => apply tidy_ret
  | |- tidy _ (throw _) => apply tidy_throw
  | |- tidy _ (printError _ ≫= (fun _ => quit ≫= _)) => apply tidy_fatal
  | |- tidy _ (printError _ ≫= (fun _ => quitDetached ≫= _)) => apply tidy_fatal_detached
  | |- tidy _ (printError _) => apply tidy_emit; reflexivity
  | |- tidy _ (printWarning _) => apply tidy_emit; reflexivity
  | |- tidy _ (printSuccess _) => apply tidy_emit; reflexivity
  | |- tidy _ (emit _) => apply tidy_emit; reflexivity
  | |- tidy _ (observe _) => apply tidy_observe
  | |- tidy _ (call _) => apply tidy_call
  | |- tidy _ (try_catch _ _) => apply tidy_try_catch; [|intros ?]
  | |- tidy _ (forEach _ _ _) => apply tidy_forEach; intros ? ?
  | |- tidy _ (if ?c then _ else _) => destruct c eqn:?
  | |- tidy _ (match ?x with _ => _ end) => destruct x eqn:?
  | |- tidy _ (_ ≫= _) => apply tidy_bind; [|intros ?]
  end.

Create HintDb tidy.

Ltac tidy_auto :=
  repeat first
    [ solve [auto with tidy]
    | solve [apply tidy_of_quiet, quiet_noTeardown; auto with benign]
    | solve [apply quiet_noTeardown; auto with benign]
    | tidy_step
    | benign_step ].

Section TidyProgram.
Context {W E By : Type} `{!Browser W E By}.
Variable nav_url : string.
Variable detached : bool.

#[local] Hint Resolve processElement_benign invoke_benign scrapeTableData_benign
  driveReport_benign : benign.

Lemma httpGet_benign url timeout : benign noTeardown (httpGet url timeout : M W Z).
Proof.
  intros s r s'. unfold httpGet.
  destruct (axios_get url timeout (world s)) as [[e|status] w]; intros [= <- <-];
    eexists; (split; [reflexivity|]); (split; [discriminate | reflexivity]).
Qed.
#[local] Hint Resolve httpGet_benign : benign.

Lemma attemptLoop_benign url timeout retries fuel :
  forall attempt,
    benign noTeardown (attemptLoop url timeout retries fuel attempt : M W (option bool)).
Proof.
  induction fuel as [|fuel IH]; intros attempt; [apply benign_ret|].
  rewrite attemptLoop_S. unfold attemptOnce, sleep, printError, printWarning, printSuccess.
  destruct (attempt <=? retries)%nat; [|apply benign_ret].
  apply benign_bind; [benign_auto|]. intros [b|]; [apply benign_ret|].
  apply benign_bind; [|intros ?; apply IH].
  benign_auto.
Qed.

Lemma checkInternet_tidy url timeout retries :
  tidy detached (checkInternet url timeout retries : M W bool).
Proof.
  unfold checkInternet.
  apply tidy_bind; [apply tidy_of_quiet, attemptLoop_benign|]. intros [b|]; tidy_auto.
Qed.
#[local] Hint Resolve checkInternet_tidy : tidy.

Lemma connectivityGate_tidy : tidy detached (connectivityGate nav_url : M W unit).
Proof. unfold connectivityGate. tidy_auto. Qed.

Lemma navigate_tidy url : tidy detached (navigate nav_url url : M W unit).
Proof. unfold navigate, resolveUrl. tidy_auto. Qed.
#[local] Hint Resolve navigate_tidy : tidy.

Lemma login_sealed : sealed detached (login : M W unit).
Proof.
  unfold login. apply sealed_try_catch; [|intros e; apply fatal_ending].
  unfold fillCredential. tidy_auto.
Qed.

Lemma login_tidy : tidy detached (login : M W unit).
Proof. apply sealed_tidy, login_sealed. Qed.

Lemma collectReports_tidy : tidy detached (collectReports nav_url : M W aggregate).
Proof. unfold collectReports, reportStep. tidy_auto. Qed.

End TidyProgram.

Section Orchestration.
Context {W E By : Type} `{!Browser W E By}.
Variable nav_url : string.

Lemma persist_tidy mainTableData : tidy true (persist mainTableData : M W unit).
Proof. unfold persist, validateAndCreatePath. tidy_auto. Qed.

(** What [main] runs inside its [try]. *)
Lemma main_body_tidy :
  tidy true (connectivityGate nav_url;;
             navigate nav_url "Auth";;
             login;;
             mainTableData ← collectReports nav_url;
             persist mainTableData : M W unit).
Proof.
  apply tidy_bind; [apply connectivityGate_tidy | intros _].
  apply tidy_bind; [apply navigate_tidy | intros _].
  apply tidy_bind; [apply login_tidy | intros _].
  apply tidy_bind; [apply collectReports_tidy | intros mainTableData].
  apply persist_tidy.
Qed.

Lemma quit_wound (s : state W) evs :
  Forall rejected evs ->
  wound true (fst (quit s))
        (evs ++ [Teardown (Some (fst (driver_quit (world s))))]).
Proof.
  intros Hevs. exists evs, (Some (fst (driver_quit (world s)))).
  split; [reflexivity|]. split; [exact Hevs|]. split.
  - intros e [= He]. now exists (world s).
  - unfold quit. destruct (driver_quit (world s)) as [[e|[]] w]; reflexivity.
Qed.

Lemma quit_trace (s : state W) :
  trace (snd (quit s)) = (trace s ++ [Teardown (Some (fst (driver_quit (world s))))])%list.
Proof. unfold quit. destruct (driver_quit (world s)) as [[e|u] w]; reflexivity. Qed.

(** Every run of [main] ends with a call of [driver.quit()]. *)
Lemma main_wound : traced (main nav_url : M W unit) (wound true).
Proof.
  intros s r s' Hrun. unfold main, try_finally, try_catch in Hrun.
  pose proof main_body_tidy as Hbody.
  match type of Hrun with
  | context [match ?body s with _ => _ end] =>
      destruct (body s) as [rb sb] eqn:Hb; specialize (Hbody _ _ _ Hb)
  end.
  destruct Hbody as (evs & Htr & Hend).
  destruct rb as [[]|e|c].
  - cbn in Hend.
    exists (evs ++ [Teardown (Some (fst (driver_quit (world sb))))])%list. split.
    + pose proof (quit_trace sb) as Hq.
      destruct (quit sb) as [[[]|eq|cq] sq]; injection Hrun as <- <-;
        cbn in Hq; rewrite Hq, Htr, <- app_assoc; reflexivity.
    + pose proof (quit_wound sb evs (rejected_quiet evs Hend)) as Hw.
      destruct (quit sb) as [[[]|eq|cq] sq]; injection Hrun as <- <-; exact Hw.
  - cbn in Hrun.
    set (line := Log Failure _) in Hrun.
    set (sc := mkState (world sb) (trace sb ++ [line])) in Hrun.
    assert (Forall rejected (evs ++ [line])) as Hrej.
    { apply Forall_app. split; [exact (tidy_throw_rejected true e evs Hend)|].
      repeat constructor. }
    exists ((evs ++ [line]) ++ [Teardown (Some (fst (driver_quit (world sc))))])%list. split.
    + pose proof (quit_trace sc) as Hq.
      destruct (quit sc) as [[[]|eq|cq] sq]; injection Hrun as <- <-;
        cbn in Hq; rewrite Hq, Htr, <- !app_assoc; reflexivity.
    + pose proof (quit_wound sc _ Hrej) as Hw.
      destruct (quit sc) as [[[]|eq|cq] sq]; injection Hrun as <- <-; exact Hw.
  - injection Hrun as <- <-. exists evs. split; [exact Htr | exact Hend].
Qed.

(** With a driver whose [quit] never rejects, no event is a rejected
    call of it. *)
Lemma healthy_rejected evs :
  (forall w : W, fst (driver_quit w) = inr tt) -> Forall rejected evs -> teardowns evs = 0%nat.
Proof.
  intros Hok. induction 1 as [|ev evs Hev Hevs IH]; [reflexivity|].
  unfold teardowns in *. destruct ev; cbn; try exact IH.
  destruct Hev as (e & _ & w & Hw). rewrite Hok in Hw. discriminate.
Qed.

End Orchestration.

Section Outcomes.
Context {W E By : Type} `{!Browser W E By}.

Lemma login_needs_credentials :
  unset (getenv "USERNAME") \/ unset (getenv "PASSWORD") ->
  returns (login : M W unit) (fun _ => False).
Proof.
  intros Hunset. unfold login.
  apply returns_try_catch; [|intros e; unfold printError; repeat returns_step].
  apply returns_bind_any. intros loginForm.
  apply returns_bind_any. intros _.
  apply (returns_bind _ _ (fun _ => False)); [|intros ? []].
  cbn [forEach].
  assert (forall value acc,
             unset (getenv (toUpperCase value)) ->
             returns (fillCredential loginForm acc value : M W unit) (fun _ => False))
    as Hmissing.
  { intros value acc [Hv|Hv]; unfold fillCredential, printError; rewrite Hv;
      repeat returns_step. }
  destruct Hunset as [Hu|Hp].
  - apply (returns_bind _ _ (fun _ => False)); [|intros ? []].
    apply Hmissing. exact Hu.
  - apply returns_bind_any. intros acc.
    apply (returns_bind _ _ (fun _ => False)); [|intros ? []].
    apply Hmissing. exact Hp.
Qed.

End Outcomes.

(** X1. Every run of [main] ends with a call of [driver.quit()] as its
    last event, and every earlier call of it in the run was awaited and
    rejected. [main] returns only when the last call resolved, throws
    only what the last call rejected with, and ends the process only with
    code 1, after a call that resolved or after the one that is not
    awaited. So with a driver whose [quit] never rejects, [main] never
    throws and calls it exactly once. *)
Theorem main_quits_last {W E By : Type} `{!Browser W E By} (nav_url : string)
    (s : state W) :
  (exists before outcome,
      emitted s (snd (main nav_url s)) = (before ++ [Teardown outcome])%list /\
      Forall rejected before /\
      match fst (main nav_url s) with
      | Ret _ => outcome = Some (inr tt)
      | Throw e => outcome = Some (inl e) /\ exists w : W, fst (driver_quit w) = inl e
      | Exit code => code = 1%Z /\ (outcome = Some (inr tt) \/ outcome = None)
      end) /\
  ((forall w : W, fst (driver_quit w) = inr tt) ->
   teardowns (emitted s (snd (main nav_url s))) = 1%nat /\
   (fst (main nav_url s) = Ret tt \/ fst (main nav_url s) = Exit 1)).
Proof.
  destruct (main nav_url s) as [r s'] eqn:Hrun.
  destruct (main_wound nav_url _ _ _ Hrun)
    as (evs & Htr & before & outcome & -> & Hbefore & Hgen & Hverdict).
  cbn [fst snd]. rewrite (emitted_app s s' _ Htr). split.
  - exists before, outcome. split; [reflexivity|]. split; [exact Hbefore|].
    destruct r as [a|e|c]; cbn in Hverdict.
    + exact Hverdict.
    + split; [exact Hverdict | now apply Hgen].
    + destruct Hverdict as [Hc [Ho|[_ Ho]]]; auto.
  - intros Hok. split.
    + rewrite teardowns_app, (healthy_rejected before Hok Hbefore). reflexivity.
    + destruct r as [[]|e|c]; cbn in Hverdict.
      * now left.
      * destruct (Hgen e Hverdict) as (w & Hw). rewrite Hok in Hw. discriminate.
      * destruct Hverdict as [-> _]. now right.
Qed.

(** X2. [login] returns without having called [driver.quit()], or the
    call is the last thing it did, every earlier call of it having
    rejected: then it ends the process with code 1 when the last call
    resolved, and throws what the last call rejected with. *)
Theorem login_all_or_nothing {W E By : Type} `{!Browser W E By} (s : state W) :
  match fst (login s) with
  | Ret _ => teardowns (emitted s (snd (login s))) = 0%nat
  | Throw e =>
      (exists w : W, fst (driver_quit w) = inl e) /\
      exists before,
        emitted s (snd (login s)) = (before ++ [Teardown (Some (inl e))])%list /\
        Forall rejected before
  | Exit code =>
      code = 1%Z /\
      exists before,
        emitted s (snd (login s)) = (before ++ [Teardown (Some (inr tt))])%list /\
        Forall rejected before
  end.
Proof.
  destruct (login s) as [r s'] eqn:Hrun.
  destruct (login_sealed false _ _ _ Hrun) as (evs & Htr & Hend).
  cbn [fst snd]. rewrite (emitted_app s s' evs Htr).
  destruct r as [a|e|c]; cbn in Hend; [exact Hend | |];
    destruct Hend as (before & outcome & -> & Hbefore & Hgen & Hverdict);
    cbn in Hverdict.
  - subst outcome. split; [now apply Hgen | eauto].
  - destruct Hverdict as [-> [->|[Hd _]]]; [|discriminate]. split; eauto.
Qed.

(** X3. When [USERNAME] or [PASSWORD] is missing from the environment or
    empty, [login] does not return, whatever the page shows: it ends the
    process with code 1, or throws what [driver.quit()] rejected with. *)
Theorem login_without_credentials_never_returns {W E By : Type} `{!Browser W E By}
    (s : state W) :
  unset (getenv "USERNAME") \/ unset (getenv "PASSWORD") ->
  fst (login s) = Exit 1 \/
  exists e (w : W), fst (login s) = Throw e /\ fst (driver_quit w) = inl e.
Proof.
  intros Hunset.
  destruct (login s) as [r s'] eqn:Hrun.
  destruct (login_sealed false _ _ _ Hrun) as (evs & _ & Hend).
  cbn [fst]. destruct r as [a|e|c].
  - destruct (login_needs_credentials Hunset _ _ _ Hrun).
  - right. destruct Hend as (before & outcome & _ & _ & Hgen & Hverdict).
    cbn in Hverdict. destruct (Hgen e Hverdict) as (w & Hw). eauto.
  - left. destruct Hend as (before & outcome & _ & _ & _ & Hverdict).
    cbn in Hverdict. now destruct Hverdict as [-> _].
Qed.


Section Strings.

Lemma startsWith_spec p : forall s, startsWith p s = true <-> exists b, s = p ++ b.
Proof.
  induction p as [|a p IH]; intros s; cbn.
  - split; [intros _; now exists s | reflexivity].
  - destruct s as [|c s].
    + split; [discriminate | intros [b Hb]; discriminate].
    + rewrite andb_true_iff, Ascii.eqb_eq, IH. split.
      * intros [-> [b ->]]. now exists b.
      * intros [b [= -> ->]]. split; [reflexivity | now exists b].
Qed.

Lemma includes_spec p : forall s, includes p s = true <-> exists a b, s = a ++ p ++ b.
Proof.
  induction s as [|c s IH]; cbn [includes]; rewrite orb_true_iff, startsWith_spec.
  - split.
    + intros [[b Hb]|Hf]; [|discriminate]. now exists "", b.
    + intros (a & b & Hab). left. destruct a; [now exists b | discriminate].
  - rewrite IH. split.
    + intros [[b Hb]|(a & b & ->)]; [now exists "", b|].
      now exists (String c a), b.
    + intros (a & b & Hab). destruct a as [|c' a]; cbn in Hab.
      * left. now exists b.
      * right. injection Hab as -> ->. now exists a, b.
Qed.

Lemma keyChar_normalizeChar c : keyChar (normalizeChar c) = true.
Proof. destruct c as [[] [] [] [] [] [] [] []]; reflexivity. Qed.

Lemma everyChar_mapChars P f s :
  (forall c, P (f c) = true) -> everyChar P (mapChars f s) = true.
Proof. intros HP. induction s as [|c s IH]; cbn; [reflexivity | now rewrite HP, IH]. Qed.

Lemma trim_idempotent s : trim (trim s) = trim s.
Proof.
  unfold trim at 1. rewrite trimStart_of_clean.
  - apply trimEnd_idempotent.
  - unfold trim. apply trimEnd_clean, trimStart_clean.
Qed.

End Strings.

(** X4. The test of line 200 excludes a header exactly when "action" or
    "attachment" occurs in it as a contiguous substring. *)
Theorem excludedHeader_spec (header : string) :
  excludedHeader header = true <->
  exists a b, header = a ++ "action" ++ b \/ header = a ++ "attachment" ++ b.
Proof.
  unfold excludedHeader. rewrite orb_true_iff, !includes_spec. split.
  - intros [(a & b & H)|(a & b & H)]; exists a, b; auto.
  - intros (a & b & [H|H]); [left | right]; eauto.
Qed.

(** X5. A normalized header holds no space, no line feed and no
    character the lower-case mapping would change, and it has nothing
    left to trim. *)
Theorem normalizeHeader_shape (text : string) :
  everyChar keyChar (normalizeHeader text) = true /\
  trim (normalizeHeader text) = normalizeHeader text.
Proof.
  split.
  - rewrite normalizeHeader_mapChars. apply everyChar_mapChars, keyChar_normalizeChar.
  - apply trim_normalizeHeader.
Qed.

Section Fields.
Context {W E By : Type} `{!Browser W E By}.

(** The inner loop stores trimmed texts under the headers it visits. *)
Lemma rowFields_trimmed (cells : located E) headers :
  forall i rowData,
    returns (rowFields cells i headers rowData : M W record)
            (fun r => forall k v, r !! k = Some v ->
                                  rowData !! k = Some v \/ k ∈ headers /\ trim v = v).
Proof.
  induction headers as [|h headers IH]; intros i rowData; cbn [rowFields].
  - apply returns_ret. auto.
  - assert (forall rowData',
               (forall k v, rowData' !! k = Some v ->
                            rowData !! k = Some v \/ k ∈ h :: headers /\ trim v = v) ->
               returns (rowFields cells (S i) headers rowData' : M W record)
                       (fun r => forall k v, r !! k = Some v ->
                                  rowData !! k = Some v \/ k ∈ h :: headers /\ trim v = v))
      as Hrest.
    { intros rowData' Hrow s r s' Hrun k v Hkv.
      destruct (IH _ _ _ _ _ Hrun k v Hkv) as [Hold|[Hin Htrim]]; [auto|].
      right. split; [now right | exact Htrim]. }
    destruct (excludedHeader h); [apply Hrest; auto|].
    apply (returns_bind _ _ (fun cellText => trim cellText = cellText)).
    + destruct (elementAt cells i); [|now apply returns_ret].
      apply returns_bind_any. intros text. apply returns_ret, trim_idempotent.
    + intros cellText Htrim. apply Hrest. intros k v Hkv.
      apply lookup_setProperty_Some in Hkv as [[-> ->]|Hkv]; [|auto].
      right. split; [left | exact Htrim].
Qed.

Lemma attendancePass_grows url currentMonth currentYear tableData increment :
  returns (attendancePass url currentMonth currentYear tableData increment
           : M W (list (list record)))
          (fun tableData' => (length tableData' <= S (length tableData))%nat).
Proof.
  unfold attendancePass.
  repeat first
    [ apply returns_ret; lia
    | match goal with
      | |- returns (mret (_ ++ [_])%list) _ =>
          apply returns_ret; rewrite length_app; cbn; lia
      end
    | returns_step ].
Qed.

Lemma forEach_grows {A X} (body : list A -> X -> M W (list A)) (xs : list X) :
  (forall acc x, returns (body acc x) (fun acc' => (length acc' <= S (length acc))%nat)) ->
  forall acc,
    returns (forEach body xs acc)
            (fun acc' => (length acc' <= length acc + length xs)%nat).
Proof.
  intros Hbody. induction xs as [|x xs IH]; intros acc; cbn [forEach].
  - apply returns_ret. cbn. lia.
  - eapply returns_bind; [apply Hbody|]. intros acc1 H1 s r s' Hrun.
    pose proof (IH acc1 _ _ _ Hrun). cbn in *. lia.
Qed.

End Fields.

(** X6. In every record the table parser returns, each value is a
    trimmed string and each key is the normalization of the text of a
    header cell, as the parse read it. *)
Theorem scraped_fields_are_clean {W E By : Type} `{!Browser W E By}
    (url : string) (s : state W) (tableData : list record) (s' : state W)
    (rec : record) (key value : string) :
  scrapeTableData url s = (Ret tableData, s') ->
  rec ∈ tableData ->
  rec !! key = Some value ->
  trim value = value /\
  exists texts parsed,
    TableRun s texts parsed s' /\
    tableData = map snd parsed /\
    exists text, text ∈ texts /\ key = normalizeHeader text.
Proof.
  intros Hrun Hrec Hkv.
  destruct (scrapeTableData_run url _ _ _ Hrun) as [->|(texts & parsed & Htable & ->)];
    [inversion Hrec|].
  apply list_elem_of_fmap in Hrec as ([cells rec'] & -> & Hin). cbn [snd] in Hkv.
  pose proof Htable as (table & header & ths & tbody & rows & s1 & s2 & s3 & s4 & s5 & s6 &
                        _ & _ & _ & _ & _ & _ & Hrows).
  destruct (RowsRun_parsed _ _ _ _ _ Hrows cells rec' Hin) as (s7 & s8 & Hfields).
  destruct (rowFields_trimmed cells _ 0 ∅ _ _ _ Hfields key value Hkv)
    as [Hempty|[Hkey Htrim]]; [now rewrite lookup_empty in Hempty|].
  split; [exact Htrim|]. exists texts, parsed. split; [exact Htable|].
  split; [reflexivity|].
  apply list_elem_of_fmap in Hkey as (text & -> & Htext). eauto.
Qed.

(** X7. The report driver pushes at most three pages for the attendance
    report (one per month offset) and at most one for any other report. *)
Theorem driveReport_page_bound {W E By : Type} `{!Browser W E By}
    (url : string) (s : state W) (tableData : list (list record)) (s' : state W) :
  driveReport url s = (Ret tableData, s') ->
  (length tableData <= if includes "attendance" (toLowerCase url) then 3 else 1)%nat.
Proof.
  unfold driveReport. destruct (includes "attendance" (toLowerCase url)).
  - intros Hrun. apply bind_Ret in Hrun as (now & s1 & _ & Hrun).
    exact (forEach_grows _ _ (fun acc x => attendancePass_grows url _ _ acc x) [] _ _ _ Hrun).
  - intros Hrun. apply bind_Ret in Hrun as (scrapedData & s1 & _ & Hrun).
    destruct (0 <? length scrapedData)%nat; apply mret_Ret in Hrun as [<- _]; cbn; lia.
Qed.

Section Visits.
Context {W E By : Type} `{!Browser W E By}.
Variable nav_url : string.

Lemma pageVisits_app evs evs' :
  pageVisits (evs ++ evs') = (pageVisits evs ++ pageVisits evs')%list.
Proof. unfold pageVisits. apply flat_map_app. Qed.

Lemma quiet_pageVisits evs : forallb consoleOrTimer evs = true -> pageVisits evs = [].
Proof.
  induction evs as [|ev evs IH]; cbn; [reflexivity|].
  intros H. apply andb_prop in H as [Hev Hrest].
  destruct ev; try discriminate; cbn; now apply IH.
Qed.

Lemma navigate_run url (s s1 : state W) :
  navigate nav_url url s = (Ret tt, s1) ->
  exists href,
    new_URL (navigationPath url) nav_url = inr href /\
    trace s1 = (trace s ++ [Visit href])%list.
Proof.
  unfold navigate, navigationPath, resolveUrl.
  destruct (existsb _ filingKeywords);
    (match goal with
     | |- context [new_URL ?rel nav_url] => destruct (new_URL rel nav_url) as [e|href]
     end; [intros Hrun; apply bind_Ret in Hrun as (? & ? & Hthrow & _); discriminate|];
     intros Hrun; exists href; split; [reflexivity|];
     erewrite bind_step in Hrun by reflexivity;
     unfold try_catch in Hrun;
     destruct ((emit (Visit href);; call (driver_get href) : M W unit) s)
       as [[[]|e|c] s2] eqn:Hvisit;
     [ injection Hrun as <-;
       unfold mbind, M_bind, emit, call in Hvisit; cbn in Hvisit;
       destruct (driver_get href (world s)) as [[e|[]] w];
       [discriminate | now injection Hvisit as <-]
     | rewrite fatal_run in Hrun;
       destruct (fst (driver_quit (world s2))); discriminate
     | discriminate ]).
Qed.

Lemma ReportsRun_visits urls (s : state W) runs s' :
  ReportsRun nav_url urls s runs s' ->
  exists hrefs evs,
    trace s' = (trace s ++ evs)%list /\
    pageVisits evs = hrefs /\
    Forall2 (fun url href => new_URL (navigationPath url) nav_url = inr href) urls hrefs.
Proof.
  induction 1 as [s|url urls s s1 s2 s3 tableData runs s' Hnav Hdrive Hlog Hrest IH].
  - exists [], []. rewrite app_nil_r. repeat split. constructor.
  - destruct IH as (hrefs & evs & Htr & Hvisits & Hall).
    apply navigate_run in Hnav as (href & Hhref & Htr1).
    destruct (driveReport_benign url _ _ _ Hdrive) as (evs2 & Htr2 & _ & Hquiet).
    assert (exists evs3, trace s3 = (trace s2 ++ evs3)%list /\ pageVisits evs3 = [])
      as (evs3 & Htr3 & Hv3).
    { destruct Hlog as [[_ ->]|[_ Hlog]].
      - exists []. now rewrite app_nil_r.
      - injection Hlog as <-. eexists. split; reflexivity. }
    exists (href :: hrefs), ([Visit href] ++ evs2 ++ evs3 ++ evs)%list.
    split; [|split].
    + rewrite Htr, Htr3, Htr2, Htr1, <- !app_assoc. reflexivity.
    + rewrite !pageVisits_app, (quiet_pageVisits evs2 Hquiet), Hv3, Hvisits. reflexivity.
    + constructor; assumption.
Qed.

End Visits.

(** X8. When the loop over the reports returns, the browser was sent to
    exactly four addresses, in the order of [urlList]: each the resolution
    of the report's path against the base address. *)
Theorem collectReports_visits {W E By : Type} `{!Browser W E By} (nav_url : string)
    (s : state W) (agg : aggregate) (s' : state W) :
  collectReports nav_url s = (Ret agg, s') ->
  Forall2 (fun url href => new_URL (navigationPath url) nav_url = inr href)
          urlList (pageVisits (emitted s s')).
Proof.
  intros Hrun. unfold collectReports in Hrun.
  destruct (collect_runs nav_url urlList ∅ s agg s' Hrun) as (runs & Hruns & _ & _).
  destruct (ReportsRun_visits nav_url _ _ _ _ Hruns) as (hrefs & evs & Htr & <- & Hall).
  now rewrite (emitted_app s s' evs Htr).
Qed.

Section Ends.
Context {W : Type}.

Lemma ends_ret {A} (a : A) (Q : A -> Prop) T : Q a -> ends (mret a : M W A) Q T.
Proof. intros HQ s r s' [= <- <-]. exact HQ. Qed.

Lemma ends_throw {A} (e : error) (Q : A -> Prop) (T : error -> Prop) :
  T e -> ends (throw e : M W A) Q T.
Proof. intros HT s r s' [= <- <-]. exact HT. Qed.

Lemma ends_emit (ev : event) T : ends (emit ev : M W unit) anything T.
Proof. intros s r s' [= <- <-]. exact I. Qed.

Lemma ends_observe {A} (f : W -> A) T : ends (observe f) anything T.
Proof. intros s r s' [= <- <-]. exact I. Qed.

Lemma ends_act (op : W -> W) T : ends (act op) anything T.
Proof. intros s r s' [= <- <-]. exact I. Qed.

Lemma ends_call {A} (op : W -> (error + A) * W) (T : error -> Prop) :
  (forall w e, fst (op w) = inl e -> T e) -> ends (call op) anything T.
Proof.
  intros HT s r s'. unfold call. specialize (HT (world s)).
  destruct (op (world s)) as [[e|a] w]; intros [= <- <-]; [now apply HT | exact I].
Qed.

Lemma ends_bind {A B} (m : M W A) (f : A -> M W B) (Q1 : A -> Prop) (Q : B -> Prop) T :
  ends m Q1 T -> (forall a, Q1 a -> ends (f a) Q T) -> ends (m ≫= f) Q T.
Proof.
  intros Hm Hf s r s'. unfold mbind, M_bind.
  destruct (m s) as [[a|e|c] s1] eqn:Hms; pose proof (Hm _ _ _ Hms) as H1; cbn in H1.
  - apply Hf. exact H1.
  - intros [= <- <-]. exact H1.
  - destruct H1.
Qed.

Lemma ends_try_catch {A} (m : M W A) (h : error -> M W A) (Q : A -> Prop) T :
  ends m Q anyError -> (forall e, ends (h e) Q T) -> ends (try_catch m h) Q T.
Proof.
  intros Hm Hh s r s'. unfold try_catch.
  destruct (m s) as [[a|e|c] s1] eqn:Hms; pose proof (Hm _ _ _ Hms) as H1; cbn in H1.
  - intros [= <- <-]. exact H1.
  - apply Hh.
  - destruct H1.
Qed.

Lemma ends_weaken {A} (m : M W A) (Q Q' : A -> Prop) (T T' : error -> Prop) :
  ends m Q T -> (forall a, Q a -> Q' a) -> (forall e, T e -> T' e) -> ends m Q' T'.
Proof.
  intros Hm HQ HT s r s' Hrun. specialize (Hm _ _ _ Hrun).
  destruct r; cbn in *; auto.
Qed.

Lemma ends_forEach {A X} (body : A -> X -> M W A) (xs : list X) T :
  (forall acc x, ends (body acc x) anything T) ->
  forall acc, ends (forEach body xs acc) anything T.
Proof.
  intros Hbody. induction xs as [|x xs IH]; intros acc; cbn.
  - now apply ends_ret.
  - apply (ends_bind _ _ anything); [apply Hbody | intros ? _; apply IH].
Qed.

End Ends.

Ltac ends_step :=
  match goal with
  | |- ends (mret _) _ _ => apply ends_ret
  | |- ends (throw _) _ _ => apply ends_throw
  | |- ends (emit _) _ _ => apply ends_emit
  | |- ends (observe _) _ _ => apply ends_observe
  | |- ends (act _) _ _ => apply ends_act
  | |- ends (call _) _ anyError => apply ends_call; intros; exact I
  | |- ends (try_catch _ _) _ _ => apply ends_try_catch; [|intros ?]
  | |- ends (forEach _ _ _) _ _ => apply ends_forEach; intros ? ?
  | |- ends (if ?c then _ else _) _ _ => destruct c eqn:?
  | |- ends (match ?x with _ => _ end) _ _ => destruct x eqn:?
  | |- ends (_ ≫= _) _ _ => apply (ends_bind _ _ anything); [|intros ? _]
  end.

Create HintDb ends.

Ltac ends_auto :=
  repeat first
    [ exact I
    | solve [auto with ends]
    | ends_step ].

Section Recoverable.
Context {W E By : Type} `{!Browser W E By}.

Lemma processElement_ends parent by_ locator multiple timeout (T : error -> Prop) :
  ends (processElement parent by_ locator multiple timeout : M W (located E))
       (shapeOf multiple) T.
Proof.
  unfold processElement, printError, printWarning.
  destruct locator as [[|c loc]|];
    try (apply (ends_bind _ _ anything); [apply ends_emit | intros ? _];
         apply ends_ret; now left).
  apply ends_try_catch.
  - destruct multiple.
    + apply (ends_bind _ _ anything); [ends_auto|]. intros es _.
      apply ends_ret. right. eauto.
    + apply (ends_bind _ _ anything); [ends_auto|]. intros el _.
      apply (ends_bind _ _ anything); [ends_auto|]. intros found _.
      apply ends_ret. right. eauto.
  - intros e.
    repeat first
      [ apply ends_ret; now left
      | apply (ends_bind _ _ anything); [apply ends_emit | intros ? _]
      | ends_step ].
Qed.

Lemma processElement_ends_any parent by_ locator multiple timeout (T : error -> Prop) :
  ends (processElement parent by_ locator multiple timeout : M W (located E)) anything T.
Proof. eapply ends_weaken; [apply processElement_ends | easy | eauto]. Qed.
#[local] Hint Resolve processElement_ends_any : ends.

Lemma getText_ends (cell : E) : ends (call (getText cell)) anything textFault.
Proof. apply ends_call. intros w e He. now exists cell, w. Qed.
#[local] Hint Resolve getText_ends : ends.

Lemma invoke_ends {A} (v : located E) (method : E -> W -> (error + A) * W) :
  ends (invoke v method) anything anyError.
Proof. unfold invoke. ends_auto. Qed.
#[local] Hint Resolve invoke_ends : ends.

Lemma rowFields_ends (cells : located E) headers :
  forall i rowData, ends (rowFields cells i headers rowData : M W record) anything textFault.
Proof.
  induction headers as [|h headers IH]; intros i rowData; cbn [rowFields];
    [now apply ends_ret|].
  destruct (excludedHeader h); [apply IH|].
  apply (ends_bind _ _ anything); [ends_auto | intros ? _; apply IH].
Qed.
#[local] Hint Resolve rowFields_ends : ends.

Lemma parseRow_ends headers tableData row :
  ends (parseRow headers tableData row : M W (list record)) anything textFault.
Proof. unfold parseRow. ends_auto. Qed.
#[local] Hint Resolve parseRow_ends : ends.

(** After the falsy check, an array is what is left of a multiple
    search, and iterating it does not throw. *)
Lemma listed_ends {A} (v : located E) (k : list E -> M W A) (fallback : M W A) Q T :
  shapeOf true v ->
  ends fallback Q T ->
  (forall es, ends (k es) Q T) ->
  ends (if negb (truthy v) then fallback else iterate v ≫= k) Q T.
Proof.
  intros [->|[es ->]] Hfallback Hk; cbn; [exact Hfallback|].
  intros s r s' Hrun. erewrite bind_step in Hrun by reflexivity. exact (Hk es _ _ _ Hrun).
Qed.

Lemma scrapeTableData_ends url :
  ends (scrapeTableData url : M W (list record)) anything textFault.
Proof.
  unfold scrapeTableData, printError.
  apply (ends_bind _ _ anything); [ends_auto | intros table _].
  destruct (negb (truthy table)); [ends_auto|].
  apply (ends_bind _ _ anything); [ends_auto | intros header _].
  destruct (negb (truthy header)); [ends_auto|].
  apply (ends_bind _ _ (shapeOf true)); [apply processElement_ends | intros headerElems Hshape].
  unfold readHeaders.
  destruct Hshape as [->|[es ->]]; cbn [truthy negb]; [ends_auto|].
  apply (ends_bind _ _ anything).
  { unfold iterate. ends_auto. }
  intros headers _.
  apply (ends_bind _ _ anything); [ends_auto | intros tbody _].
  destruct (negb (truthy tbody)); [ends_auto|].
  apply (ends_bind _ _ (shapeOf true)); [apply processElement_ends | intros rows Hrows].
  apply listed_ends; [exact Hrows | ends_auto | intros rs; ends_auto].
Qed.
#[local] Hint Resolve scrapeTableData_ends : ends.

Lemma attendancePass_ends url currentMonth currentYear tableData increment :
  ends (attendancePass url currentMonth currentYear tableData increment
        : M W (list (list record))) anything textFault.
Proof.
  unfold attendancePass, guarded, sleep, printError, printWarning. ends_auto.
Qed.
#[local] Hint Resolve attendancePass_ends : ends.

Lemma driveReport_ends url :
  ends (driveReport url : M W (list (list record))) anything textFault.
Proof. unfold driveReport. ends_auto. Qed.

End Recoverable.

(** X9. Driving a report never ends the process and prints only console
    lines and starts timers; if it throws, the error comes from reading
    the text of an element. Every other fault (an element not found, a
    failed click, a failed key stroke) is absorbed. *)
Theorem driveReport_recoverable {W E By : Type} `{!Browser W E By} (url : string) (s : state W) :
  match fst (driveReport url s) with
  | Ret _ => True
  | Throw e => exists (cell : E) (w : W), fst (getText cell w) = inl e
  | Exit _ => False
  end /\
  forallb consoleOrTimer (emitted s (snd (driveReport url s))) = true.
Proof.
  destruct (driveReport url s) as [r s'] eqn:Hrun. cbn [fst snd]. split.
  - exact (driveReport_ends url _ _ _ Hrun).
  - destruct (driveReport_benign url _ _ _ Hrun) as (evs & Htr & _ & Hquiet).
    now rewrite (emitted_app s s' evs Htr).
Qed.

Section Readable.
Context {W E By : Type} `{!Browser W E By}.
Variable shown : W -> Prop.
Variable text : E -> string.

Lemma zipRow_untouched (cells : list E) h headers :
  h ∉ headers -> forall i rowData, zipRow text cells i headers rowData !! h = rowData !! h.
Proof.
  induction headers as [|h0 headers IH]; intros Hnot i rowData; cbn; [reflexivity|].
  apply not_elem_of_cons in Hnot as [Hne Hnot].
  destruct (excludedHeader h0); rewrite IH by exact Hnot; [reflexivity|].
  apply lookup_setProperty_ne. congruence.
Qed.

Lemma zipRow_lookup (cells : list E) h headers :
  forall i j rowData,
    headers !! j = Some h ->
    storedHeader h = true ->
    (forall k, (j < k)%nat -> headers !! k <> Some h) ->
    zipRow text cells i headers rowData !! h = Some (cellValue text cells (i + j)).
Proof.
  induction headers as [|h0 headers IH]; intros i j rowData Hj Hkeep Hlast; [discriminate|].
  cbn [zipRow]. destruct j as [|j].
  - injection Hj as ->. apply storedHeader_true in Hkeep as [Hkeep Hname].
    rewrite Hkeep, Nat.add_0_r.
    rewrite zipRow_untouched; [now apply lookup_setProperty_eq|].
    intros Hin. apply list_elem_of_lookup in Hin as [k Hk].
    apply (Hlast (S k)); [lia | exact Hk].
  - replace (i + S j)%nat with (S i + j)%nat by lia.
    destruct (excludedHeader h0); apply IH; auto; intros k Hk; apply (Hlast (S k)); lia.
Qed.

Lemma rowFields_readable (cells : list E) headers :
  (forall cell w, cell ∈ cells -> shown w -> getText cell w = (inr (text cell), w)) ->
  forall i rowData w tr,
    shown w ->
    rowFields (Many cells) i headers rowData (mkState w tr)
    = (Ret (zipRow text cells i headers rowData), mkState w tr).
Proof.
  intros Hread. induction headers as [|h headers IH]; intros i rowData w tr Hw;
    cbn [rowFields zipRow]; [reflexivity|].
  destruct (excludedHeader h); [now apply IH|].
  unfold cellValue. cbn [elementAt].
  destruct (cells !! i) as [cell|] eqn:Hcell.
  - assert (cell ∈ cells) as Hin by (apply list_elem_of_lookup; eauto).
    erewrite bind_step; [now apply IH|].
    unfold mbind, M_bind, call. cbn. rewrite (Hread cell w Hin Hw). reflexivity.
  - erewrite bind_step by reflexivity. now apply IH.
Qed.

Lemma readHeaders_loop (es : list E) :
  (forall cell w, cell ∈ es -> shown w -> getText cell w = (inr (text cell), w)) ->
  forall acc w tr,
    shown w ->
    forEach (fun headers headerElem =>
               t ← call (getText headerElem);
               mret (headers ++ [normalizeHeader t])%list) es acc (mkState w tr)
    = (Ret (acc ++ map (fun e => normalizeHeader (text e)) es)%list, mkState w tr).
Proof.
  induction es as [|e es IH]; intros Hread acc w tr Hw; cbn [forEach map].
  - now rewrite app_nil_r.
  - rewrite (bind_step _ _ _ (acc ++ [normalizeHeader (text e)])%list (mkState w tr)).
    + rewrite IH; [now rewrite <- app_assoc | | exact Hw].
      intros cell w' Hin. apply Hread. now right.
    + unfold mbind, M_bind, call. cbn. rewrite (Hread e w ltac:(left) Hw). reflexivity.
Qed.

End Readable.

(** X10. On a page whose cell texts can be read, the row loop returns
    without touching the world or the trace, and zips headers and cells by
    position: the keys are the headers that are stored (not excluded, and
    not [__proto__]), and the header at position [j] (its last
    occurrence, when stored) gets the trimmed text of the cell at
    position [j], or the empty string when there is none. *)
Theorem rows_are_zipped {W E By : Type} `{!Browser W E By}
    (shown : W -> Prop) (text : E -> string) (cells : list E) (headers : list string)
    (s : state W) :
  (forall cell w, cell ∈ cells -> shown w -> getText cell w = (inr (text cell), w)) ->
  shown (world s) ->
  exists rowData,
    rowFields (Many cells) 0 headers ∅ s = (Ret rowData, mkState (world s) (trace s)) /\
    dom rowData = recordKeys headers /\
    forall j header,
      headers !! j = Some header ->
      storedHeader header = true ->
      (forall k, (j < k)%nat -> headers !! k <> Some header) ->
      rowData !! header = Some (cellValue text cells j).
Proof.
  intros Hread Hshown. destruct s as [w tr]. cbn in Hshown.
  exists (zipRow text cells 0 headers ∅).
  pose proof (rowFields_readable shown text cells headers Hread 0 ∅ w tr Hshown) as Hrun.
  split; [exact Hrun|]. split.
  - rewrite (rowFields_keys (Many cells) headers 0 ∅ _ _ _ Hrun), dom_empty_L.
    apply union_empty_l_L.
  - intros j header Hj Hkeep Hlast.
    exact (zipRow_lookup text cells header headers 0 j ∅ Hj Hkeep Hlast).
Qed.

(** X11. On a page whose header texts can be read, the header loop
    returns the normalized texts of the header cells, one per cell and in
    their order. *)
Theorem headers_in_order {W E By : Type} `{!Browser W E By}
    (shown : W -> Prop) (text : E -> string) (headerElems : list E) (s : state W) :
  (forall cell w, cell ∈ headerElems -> shown w -> getText cell w = (inr (text cell), w)) ->
  shown (world s) ->
  readHeaders (Many headerElems) s
  = (Ret (map (fun e => normalizeHeader (text e)) headerElems),
     mkState (world s) (trace s)).
Proof.
  intros Hread Hshown. destruct s as [w tr]. cbn in Hshown.
  unfold readHeaders. erewrite bind_step by reflexivity.
  exact (readHeaders_loop shown text headerElems Hread [] w tr Hshown).
Qed.

(** X12. For every number of retries the connectivity check makes at
    most that many probes, separated by timers of one second, and returns
    [true] at the first answer 200. After exactly that many failed probes
    (after none at all when the number is 0) it calls [driver.quit()], in
    the world [w] the probes left: the process is ended with code 1 when
    the call resolves, and the check throws what the call rejected with
    otherwise. *)
Theorem checkInternet_probe_bound {W E By : Type} `{!Browser W E By}
    (url : string) (timeout : Z) (retries : nat) (s : state W) :
  exists responses : list (error + Z),
    (length responses <= retries)%nat /\
    ((fst (checkInternet url timeout retries s) = Ret true /\
      last responses = Some (inr 200%Z) /\
      calls (emitted s (snd (checkInternet url timeout retries s)))
      = schedule url timeout responses)
     \/
     (length responses = retries /\
      (forall resp, resp ∈ responses -> resp <> inr 200%Z) /\
      let w := world (snd (attemptLoop url timeout retries retries 1 s)) in
      calls (emitted s (snd (checkInternet url timeout retries s)))
      = (schedule url timeout responses ++ [Teardown (Some (fst (driver_quit w)))])%list /\
      fst (checkInternet url timeout retries s)
      = match fst (driver_quit w) with
        | inl e => Throw e
        | inr _ => Exit 1
        end /\
      world (snd (checkInternet url timeout retries s)) = snd (driver_quit w))).
Proof.
  destruct (attemptLoop_schedule url timeout retries retries 1 s ltac:(lia))
    as (responses & evs & r & s' & Hrun & Htr & Hcalls & Hinit & Hend).
  exists responses. unfold checkInternet.
  destruct Hend as [(-> & (x & Hx & Hx200) & Hlen)|(-> & Hlen & Hall)].
  - split; [lia|]. left.
    rewrite (bind_step _ _ _ _ _ Hrun). cbn.
    apply answered200_true in Hx200 as ->.
    split; [reflexivity|]. split; [exact Hx|].
    now rewrite (emitted_app s s' evs Htr).
  - split; [lia|]. right.
    rewrite (bind_step _ _ _ _ _ Hrun), fatal_run. cbn [fst snd].
    split; [lia|]. split.
    + intros resp Hin. apply answered200_false. auto.
    + cbn zeta. rewrite Hrun. cbn [fst snd world].
      split; [|split; reflexivity].
      erewrite emitted_app.
      2:{ cbn. rewrite Htr, <- !app_assoc. reflexivity. }
      rewrite calls_app, Hcalls. reflexivity.
Qed.

(** X13. An empty aggregate is never written: [persist] only prints a
    line. Otherwise a failure to create the directory ends the process
    with code 1 after a call of [driver.quit()] that is not awaited (the
    world is the one the failed call left); a failure to write the file
    is not fatal: [persist] returns. *)
Theorem persist_outcome {W E By : Type} `{!Browser W E By}
    (mainTableData : aggregate) (s : state W) :
  if (0 <? size mainTableData)%nat then
    match fs_mkdir (pathJoin (pathJoin cwd "src") "assets") (world s) with
    | (inl e, w) =>
        persist mainTableData s
        = (Exit 1,
           mkState w
             (trace s ++ [Log Failure ("Error creating directory '"
                                       ++ pathJoin (pathJoin cwd "src") "assets"
                                       ++ "': " ++ err_message e);
                          Teardown None]))
    | (inr _, w) =>
        fst (persist mainTableData s) = Ret tt /\
        world (snd (persist mainTableData s))
        = snd (fs_writeJson (pathJoin (pathJoin (pathJoin cwd "src") "assets") "data.json")
                 mainTableData w)
    end
  else
    persist mainTableData s
    = (Ret tt,
       mkState (world s)
         (trace s ++ [Log Failure "No data collected from any of the URLs."])).
Proof.
  unfold persist. destruct (0 <? size mainTableData)%nat; [|reflexivity].
  unfold validateAndCreatePath, try_catch, mbind, M_bind, call, mret, M_ret, printError,
    printSuccess, quitDetached, exit, emit. cbn.
  destruct (fs_mkdir _ (world s)) as [[e|[]] w]; cbn; [now rewrite <- app_assoc|].
  destruct (fs_writeJson _ mainTableData w) as [[e|[]] w']; cbn; split; reflexivity.
Qed.


(** X14. When the connectivity check ends the process, [main] does
    nothing more: its run is the run of the check (no page is visited, no
    login is attempted, the driver is quit once by the check). *)
Theorem main_stops_at_connectivity {W E By : Type} `{!Browser W E By} (nav_url : string)
    (s : state W) :
  fst (checkInternet nav_url global_timeout 3 s) = Exit 1 ->
  main nav_url s = (Exit 1, snd (checkInternet nav_url global_timeout 3 s)).
Proof.
  intros Hexit. unfold main, try_finally, try_catch, connectivityGate, mbind, M_bind.
  destruct (checkInternet nav_url global_timeout 3 s) as [r s1].
  cbn in Hexit. subst r. reflexivity.
Qed.

(** On the fixture portal, with a single answer 503 and then no network. *)
Lemma main_stops_at_connectivity_witness :
  main Fixture.base (Fixture.start Fixture.portal [inr 503%Z] (3, 2024)%Z)
  = (Exit 1,
     snd (checkInternet Fixture.base global_timeout 3
            (Fixture.start Fixture.portal [inr 503%Z] (3, 2024)%Z))).
Proof.
  apply (main_stops_at_connectivity Fixture.base
           (Fixture.start Fixture.portal [inr 503%Z] (3, 2024)%Z)).
  vm_compute. reflexivity.
Defined.

(** The login page of the fixture, with an empty environment. *)
Lemma login_without_credentials_never_returns_witness :
  fst (@login _ _ _ (withEnv (fun _ => None) Fixture.fixtureBrowser)
         (Fixture.showing Fixture.authPage)) = Exit 1 \/
  exists e (w : Fixture.staticWorld),
    fst (@login _ _ _ (withEnv (fun _ => None) Fixture.fixtureBrowser)
           (Fixture.showing Fixture.authPage)) = Throw e /\
    fst (@driver_quit _ _ _ (withEnv (fun _ => None) Fixture.fixtureBrowser) w) = inl e.
Proof.
  apply (@login_without_credentials_never_returns _ _ _
           (withEnv (fun _ => None) Fixture.fixtureBrowser)).
  left. left. reflexivity.
Defined.

(** The attendance page of the fixture, in January. *)
Lemma driveReport_page_bound_witness :
  (length (Fixture.valueOr []
             (fst (driveReport "attendance" (Fixture.showing Fixture.attendancePage))))
   <= 3)%nat.
Proof.
  apply (driveReport_page_bound "attendance" (Fixture.showing Fixture.attendancePage) _
           (snd (driveReport "attendance" (Fixture.showing Fixture.attendancePage)))).
  vm_compute. reflexivity.
Defined.

(** The four report pages of the fixture portal. *)
Lemma collectReports_visits_witness :
  Forall2 (fun url href => new_URL (navigationPath url) Fixture.base = inr href)
    urlList
    (pageVisits
       (emitted (Fixture.start Fixture.portal [] (3, 2024)%Z)
          (snd (collectReports Fixture.base (Fixture.start Fixture.portal [] (3, 2024)%Z))))).
Proof.
  apply (collectReports_visits Fixture.base
           (Fixture.start Fixture.portal [] (3, 2024)%Z)
           (Fixture.valueOr ∅
              (fst (collectReports Fixture.base
                      (Fixture.start Fixture.portal [] (3, 2024)%Z))))).
  vm_compute. reflexivity.
Defined.

(** A field of the attendance page of the fixture. *)
Lemma scraped_fields_are_clean_witness :
  trim "08:00" = "08:00" /\
  exists texts parsed,
    TableRun (Fixture.showing Fixture.attendancePage) texts parsed
      (snd (scrapeTableData "attendance" (Fixture.showing Fixture.attendancePage))) /\
    Fixture.valueOr []
      (fst (scrapeTableData "attendance" (Fixture.showing Fixture.attendancePage)))
    = map snd parsed /\
    exists text, text ∈ texts /\ "time_in" = normalizeHeader text.
Proof.
  apply (scraped_fields_are_clean "attendance"
           (Fixture.showing Fixture.attendancePage)
           (Fixture.valueOr []
              (fst (scrapeTableData "attendance" (Fixture.showing Fixture.attendancePage))))
           (snd (scrapeTableData "attendance" (Fixture.showing Fixture.attendancePage)))
           {[ "date" := "2024-01-05"; "time_in" := "08:00" ]}
           "time_in" "08:00").
  - vm_compute. reflexivity.
  - vm_compute. left.
  - vm_compute. reflexivity.
Defined.

(** The second row of the two-row table, under three headers. *)
Lemma rows_are_zipped_witness :
  exists rowData : record,
    rowFields (Many [ [0; 0; 1; 1; 0]; [0; 0; 1; 1; 1] ]%nat) 0 ["day"; "hours"; "note"] ∅
      (Fixture.showing Fixture.weekPage)
    = (Ret rowData,
       mkState (world (Fixture.showing Fixture.weekPage))
               (trace (Fixture.showing Fixture.weekPage))) /\
    dom rowData = recordKeys ["day"; "hours"; "note"] /\
    forall j header,
      ["day"; "hours"; "note"] !! j = Some header ->
      storedHeader header = true ->
      (forall k, (j < k)%nat -> ["day"; "hours"; "note"] !! k <> Some header) ->
      rowData !! header
      = Some (cellValue (textIn Fixture.weekPage)
                [ [0; 0; 1; 1; 0]; [0; 0; 1; 1; 1] ]%nat j).
Proof.
  apply (rows_are_zipped (Fixture.showsDoc Fixture.weekPage) (textIn Fixture.weekPage)).
  - intros cell w Hin Hshown. cbn. unfold Fixture.showsDoc in Hshown. rewrite Hshown.
    apply elem_of_cons in Hin as [->|Hin]; [reflexivity|].
    apply list_elem_of_singleton in Hin as ->. reflexivity.
  - reflexivity.
Defined.

(** The header row of the two-row table. *)
Lemma headers_in_order_witness :
  readHeaders (Many [ [0; 0; 0; 0; 0]; [0; 0; 0; 0; 1] ]%nat)
    (Fixture.showing Fixture.weekPage)
  = (Ret (map (fun e => normalizeHeader (textIn Fixture.weekPage e))
            [ [0; 0; 0; 0; 0]; [0; 0; 0; 0; 1] ]%nat),
     mkState (world (Fixture.showing Fixture.weekPage))
             (trace (Fixture.showing Fixture.weekPage))).
Proof.
  apply (headers_in_order (Fixture.showsDoc Fixture.weekPage) (textIn Fixture.weekPage)).
  - intros cell w Hin Hshown. cbn. unfold Fixture.showsDoc in Hshown. rewrite Hshown.
    apply elem_of_cons in Hin as [->|Hin]; [reflexivity|].
    apply list_elem_of_singleton in Hin as ->. reflexivity.
  - reflexivity.
Defined.

(** X15. The whole program, from start-up on. When the driver cannot be
    created, the process ends with code 1 and [driver.quit()] is not
    called. When the base address is not set, [driver.quit()] is the only
    outside call: the process ends with code 1 when it resolves, and the
    start-up throws what it rejected with otherwise. In every other case
    the run is the run of [main] from the world the creation of the
    driver left, and it ends with a call of [driver.quit()]. *)
Theorem program_outcome {W E By : Type} `{!Browser W E By}
    (createSession : W -> (error + unit) * W) (s : state W) :
  match createSession (world s) with
  | (inl _, _) =>
      fst (program createSession s) = Exit 1 /\
      teardowns (emitted s (snd (program createSession s))) = 0%nat
  | (inr _, w) =>
      match getenv "TAMS_BASE_URL" with
      | None | Some EmptyString =>
          calls (emitted s (snd (program createSession s)))
          = [Teardown (Some (fst (driver_quit w)))] /\
          fst (program createSession s)
          = match fst (driver_quit w) with
            | inl e => Throw e
            | inr _ => Exit 1
            end
      | Some nav_url =>
          program createSession s = main nav_url (mkState w (trace s)) /\
          exists before outcome,
            emitted s (snd (program createSession s))
            = (before ++ [Teardown outcome])%list
      end
  end.
Proof.
  unfold program.
  set (startup := try_catch (call createSession) _).
  destruct (createSession (world s)) as [[e|[]] w] eqn:Hcreate.
  - assert (startup s
            = (Exit 1,
               mkState w (trace s ++ [Log Failure
                                        ("Error initializing Chrome WebDriver: "
                                         ++ err_name e ++ ": " ++ err_message e)])))
      as Hrun by (unfold startup, try_catch, call; rewrite Hcreate; reflexivity).
    unfold mbind, M_bind. rewrite Hrun. cbn [fst snd].
    split; [reflexivity|]. erewrite emitted_app by reflexivity. reflexivity.
  - assert (startup s = (Ret tt, mkState w (trace s))) as Hrun
        by (unfold startup, try_catch, call; rewrite Hcreate; reflexivity).
    rewrite (bind_step _ _ _ _ _ Hrun).
    assert (calls (emitted s (snd ((printError
               "Base URL is not set. Please set the 'TAMS_BASE_URL' in your .env file.";;
                  quit;; exit 1 : M W unit) (mkState w (trace s)))))
            = [Teardown (Some (fst (driver_quit w)))] /\
            fst ((printError
               "Base URL is not set. Please set the 'TAMS_BASE_URL' in your .env file.";;
                  quit;; exit 1 : M W unit) (mkState w (trace s)))
            = match fst (driver_quit w) with
              | inl e => Throw e
              | inr _ => Exit 1
              end)
      as Hunset.
    { rewrite fatal_run. cbn [fst snd world trace]. split; [|reflexivity].
      erewrite emitted_app by reflexivity. reflexivity. }
    destruct (getenv "TAMS_BASE_URL") as [[|c nav_url]|]; [exact Hunset | | exact Hunset].
    split; [reflexivity|].
    destruct (main (String c nav_url) (mkState w (trace s))) as [r s'] eqn:Hmain.
    destruct (main_wound (String c nav_url) _ _ _ Hmain)
      as (evs & Htr & before & outcome & -> & _).
    exists before, outcome. cbn [snd]. apply emitted_app. exact Htr.
Qed.

Section FormMissing.
Context {W E By : Type} `{!Browser W E By}.

(** A single-element search whose wait rejects: the handler may print
    a line, and the call returns [null]. *)
Lemma processElement_rejected (parent : located E) by_ c loc timeout (s : state W) e w :
  wait_elementLocated by_ (String c loc) timeout (world s) = (inl e, w) ->
  exists logged,
    processElement parent by_ (Some (String c loc)) false timeout s
    = (Ret Null, mkState w (trace s ++ logged)) /\
    calls logged = [].
Proof.
  intros Hwait. unfold processElement, try_catch, mbind, M_bind, call. rewrite Hwait.
  destruct (String.eqb (err_name e) "TimeoutError").
  - exists []. rewrite app_nil_r. split; reflexivity.
  - destruct (String.eqb (err_name e) "NoSuchElementError"); eexists [_]; split; reflexivity.
Qed.

(** The run of [login] when the wait for the form rejects. *)
Lemma login_formless (s : state W) e w :
  wait_elementLocated By_ID "login-form" global_timeout (world s) = (inl e, w) ->
  exists logged,
    calls logged = [] /\
    login s =
    (let s1 := mkState w (trace s ++ logged) in
     let r1 := fst (driver_quit w) in
     let s2 := mkState (snd (driver_quit w))
                 (trace s1 ++ [Log Failure "Login form not found."; Teardown (Some r1)]) in
     match r1 with
     | inr _ => (Exit 1, s2)
     | inl e1 =>
         (match fst (driver_quit (world s2)) with
          | inl e2 => Throw e2
          | inr _ => Exit 1
          end,
          mkState (snd (driver_quit (world s2)))
            (trace s2 ++ [Log Failure ("Failed to login: " ++ err_message e1);
                          Teardown (Some (fst (driver_quit (world s2))))]))
     end).
Proof.
  intros Hwait.
  destruct (processElement_rejected Null By_ID _ _ _ s e w Hwait) as (logged & Hrun & Hlogged).
  exists logged. split; [exact Hlogged|].
  unfold login, try_catch.
  unfold mbind at 1, M_bind at 1. rewrite Hrun.
  cbn [truthy negb].
  unfold mbind at 1, M_bind at 1.
  rewrite fatal_run. cbn [world trace].
  destruct (fst (driver_quit w)) as [e1|[]]; [|reflexivity].
  rewrite fatal_run. reflexivity.
Qed.

End FormMissing.

(** X16. When the wait for the login form rejects, [login] asks the
    browser for nothing else: it reports that the form was not found and
    calls [driver.quit()]. When that call resolves the process ends with
    code 1; when it rejects, the handler of [login] calls it once more,
    in the world the first call left, and the outcome of that second call
    decides. With the imported package the wait always rejects, [By.ID]
    being no locator of it. *)
Theorem login_needs_the_form {W E By : Type} `{!Browser W E By}
    (s : state W) (e : error) (w : W) :
  wait_elementLocated By_ID "login-form" global_timeout (world s) = (inl e, w) ->
  In (Log Failure "Login form not found.") (emitted s (snd (login s))) /\
  match driver_quit w with
  | (inr _, w1) =>
      fst (login s) = Exit 1 /\
      world (snd (login s)) = w1 /\
      calls (emitted s (snd (login s))) = [Teardown (Some (inr tt))]
  | (inl e1, w1) =>
      fst (login s) = match fst (driver_quit w1) with
                      | inl e2 => Throw e2
                      | inr _ => Exit 1
                      end /\
      world (snd (login s)) = snd (driver_quit w1) /\
      calls (emitted s (snd (login s)))
      = [Teardown (Some (inl e1)); Teardown (Some (fst (driver_quit w1)))]
  end.
Proof.
  intros Hwait.
  destruct (login_formless s e w Hwait) as (logged & Hlogged & ->).
  cbn zeta. destruct (driver_quit w) as [[e1|[]] w1]; cbn [fst snd world trace].
  - erewrite emitted_app by (rewrite <- !app_assoc; reflexivity).
    split; [rewrite !in_app_iff; right; left; left; reflexivity|].
    split; [reflexivity|]. split; [reflexivity|].
    rewrite !calls_app, Hlogged. reflexivity.
  - erewrite emitted_app by (rewrite <- !app_assoc; reflexivity).
    split; [rewrite !in_app_iff; right; left; reflexivity|].
    split; [reflexivity|]. split; [reflexivity|].
    rewrite !calls_app, Hlogged. reflexivity.
Qed.

(** The imported package on the portal's login page: the form is there,
    and the wait for it rejects. *)
Lemma login_needs_the_form_witness :
  @wait_elementLocated _ _ _ Package.browser (@By_ID _ _ _ Package.browser)
    "login-form" global_timeout (world (Fixture.showing Fixture.authPage))
  = (inl Package.invalidLocator, world (Fixture.showing Fixture.authPage)) /\
  In (Log Failure "Login form not found.")
     (emitted (Fixture.showing Fixture.authPage)
        (snd (@login _ _ _ Package.browser (Fixture.showing Fixture.authPage)))) /\
  fst (@login _ _ _ Package.browser (Fixture.showing Fixture.authPage)) = Exit 1 /\
  world (snd (@login _ _ _ Package.browser (Fixture.showing Fixture.authPage)))
  = world (Fixture.showing Fixture.authPage) /\
  calls (emitted (Fixture.showing Fixture.authPage)
           (snd (@login _ _ _ Package.browser (Fixture.showing Fixture.authPage))))
  = [Teardown (Some (inr tt))].
Proof.
  split; [reflexivity|].
  exact (@login_needs_the_form _ _ _ Package.browser (Fixture.showing Fixture.authPage)
           Package.invalidLocator (world (Fixture.showing Fixture.authPage)) eq_refl).
Defined.

(** The whole of [main] with the imported package on the fixture portal:
    one probe, one page, no report. *)
Example package_main_run :
  (let run := @main _ _ _ Package.browser Fixture.base
                (Fixture.start Fixture.portal [inr 200%Z] (3, 2024)%Z) in
   (fst run, trace (snd run)))
  = (Exit 1,
     [ HttpGet "http://tams.test/" 10000 (inr 200%Z);
       Log Success "Internet connection verified.";
       Visit "http://tams.test/Auth";
       Log Failure "Error processing element 'login-form' by undefined: Invalid locator";
       Log Failure "Login form not found.";
       Teardown (Some (inr tt)) ]).
Proof. vm_compute. reflexivity. Qed.
